(** * The content-generation job pipeline

    A shallow embedding of the two programs of the repository:

    - [Batch]: the command-line batch tool (key rotation [getNextGemini],
      [generateWithRetry], the per-file [processFile] and the worker queue
      [runQueue]);
    - [Server]: the HTTP server (the in-memory job store, [updateJob],
      [getGemini], the job-tracking [processFile] and [runAutomation]).

    Asynchronous JavaScript is modelled by explicit state passing.  Every
    call that leaves the process (HTTP, the generation provider, the file
    system, the asset store) is answered by the environment: in the batch
    tool by oracles that see the whole history of the run so far, in the
    server by a script of the promises an invocation awaits.  A statement
    that quantifies over the environment covers every behaviour of the
    outside world. *)

From stdpp Require Import gmap strings list.
From stdpp Require Import pretty.
From Stdlib Require Import String.

Local Open Scope string_scope.
Local Open Scope nat_scope.
Local Open Scope list_scope.

(** ** Values shared by both programs *)
Module Js.

(** A JavaScript error object, as far as the programs look at it:
    [error.message] and [error?.response?.status]. *)
Record JsError := mkError {
  message : string;
  response_status : option nat
}.

(** [new Error(msg)] *)
Definition Error (msg : string) : JsError := mkError msg None.

(** What a settled promise delivers. *)
Inductive Settled (A : Type) :=
  | Resolved (a : A)
  | Rejected (e : JsError).
Arguments Resolved {A} a.
Arguments Rejected {A} e.

(** The body of an axios response: a string, or a parsed value of which only
    [JSON.stringify] is ever taken. *)
Inductive ResponseData :=
  | DataString (s : string)
  | DataJson (stringified : string).

(** [typeof data === 'string' ? data : JSON.stringify(data)] *)
Definition textOf (d : ResponseData) : string :=
  match d with
  | DataString s => s
  | DataJson j => j
  end.

(** JavaScript truthiness of a possibly undefined string. *)
Definition truthy (s : option string) : bool :=
  match s with
  | Some EmptyString | None => false
  | Some _ => true
  end.

(** [new GoogleGenAI({ apiKey })]; the key is [None] when the expression it
    was read from evaluated to [undefined]. *)
Record GoogleGenAI := mkGenAI { apiKey : option string }.

(** [s.includes(sub)] *)
Definition includes (s sub : string) : bool :=
  match String.index 0 sub s with
  | Some _ => true
  | None => false
  end.

End Js.

(** * The batch tool *)
Module Batch.
Import Js.

(** The constants of the CONFIG block, gathered as one configuration. *)
Record Config := mkConfig {
  BATCH_SIZE : nat;
  CONCURRENCY_LIMIT : nat;
  REQUEST_DELAY : nat;
  MAX_RETRIES : nat
}.

Definition CONFIG : Config :=
  {| BATCH_SIZE := 25; CONCURRENCY_LIMIT := 1;
     REQUEST_DELAY := 1200; MAX_RETRIES := 5 |}.

(** A record of the external store, as the tool reads it. *)
Record File := mkFile {
  _id : string;
  originalFilename : string;
  secureUrl : string;
  status : string
}.

(** Everything observable the tool does, oldest event last. *)
Inductive Event :=
  | EvSleep (ms : nat)
  | EvGenerate (key : option string) (model contents : string)
  | EvGet (url : string)
  | EvWriteFile (name content : string)
  | EvPut (id : string)
  | EvLogRetry (attempt max : nat)
  | EvLogRateLimit
  | EvLogProcessing (name : string)
  | EvLogDone (name : string)
  | EvLogFailed (name msg : string).

(** The mutable state of the process: the rotation index and the history. *)
Record State := mkState {
  keyIndex : nat;
  trace : list Event
}.

(** The outside world.  Each oracle receives the history so far. *)
Record Env := mkEnv {
  generateContent : list Event -> option string -> string -> string ->
                    Settled (option string);
  axios_get : list Event -> string -> Settled ResponseData;
  writeFileSync : list Event -> string -> string -> option JsError;
  axios_put : list Event -> string -> option JsError
}.

(** How a piece of code completes.  [Stuck] is the model running out of
    fuel; [generateWithRetry_total] shows it never happens. *)
Inductive Completion (A : Type) :=
  | Return (a : A)
  | Throw (e : JsError)
  | Stuck.
Arguments Return {A} a.
Arguments Throw {A} e.
Arguments Stuck {A}.

Definition M (A : Type) : Type := State -> Completion A * State.

Definition ret {A} (a : A) : M A := fun s => (Return a, s).
Definition throw {A} (e : JsError) : M A := fun s => (Throw e, s).
Definition stuck {A} : M A := fun s => (Stuck, s).

Definition bind {A B} (m : M A) (k : A -> M B) : M B :=
  fun s =>
    match m s with
    | (Return a, s') => k a s'
    | (Throw e, s') => (Throw e, s')
    | (Stuck, s') => (Stuck, s')
    end.

(** [try { body } catch (error) { handler }] *)
Definition try_catch {A} (body : M A) (handler : JsError -> M A) : M A :=
  fun s =>
    match body s with
    | (Throw e, s') => handler e s'
    | r => r
    end.

Notation "x <- m ;; k" := (bind m (fun x => k))
  (at level 100, m at next level, right associativity).
Notation "m ;;; k" := (bind m (fun _ => k))
  (at level 100, right associativity).

Definition emit (e : Event) : M unit :=
  fun s => (Return tt, {| keyIndex := keyIndex s; trace := e :: trace s |}).

Definition history : M (list Event) := fun s => (Return (trace s), s).

(** [await p]: the promise settles, a rejection is thrown. *)
Definition await {A} (p : Settled A) : M A :=
  match p with
  | Resolved a => ret a
  | Rejected e => throw e
  end.

Definition sleep (ms : nat) : M unit := emit (EvSleep ms).

Section Program.

Variable cfg : Config.
Variable apiKeys : list string.
Variable env : Env.

(** [getNextGemini]: read [apiKeys[keyIndex]], then advance the index
    modulo the pool size. *)
Definition getNextGemini : M GoogleGenAI :=
  fun s =>
    let key := apiKeys !! keyIndex s in
    (Return (mkGenAI key),
     {| keyIndex := (keyIndex s + 1) mod List.length apiKeys; trace := trace s |}).

(** [ai.models.generateContent({...})], awaited. *)
Definition callGenerate (ai : GoogleGenAI) (model contents : string)
  : M (option string) :=
  h <- history ;;
  emit (EvGenerate (apiKey ai) model contents) ;;;
  await (generateContent env h (apiKey ai) model contents).

(** One turn of the [while] loop of [generateWithRetry]: [inl text] is
    [return result.text], [inr attempt'] goes round the loop again with the
    incremented counter. *)
Definition retryTurn (promptText model : string) (attempt : nat)
  : M (string + nat) :=
  try_catch
    (ai <- getNextGemini ;;
     sleep (REQUEST_DELAY cfg) ;;;
     text <- callGenerate ai model promptText ;;
     match text with
     | Some t => if truthy text then ret (inl t) else throw (Error "Empty response")
     | None => throw (Error "Empty response")
     end)
    (fun error =>
       let attempt := attempt + 1 in
       emit (EvLogRetry attempt (MAX_RETRIES cfg)) ;;;
       (if decide (response_status error = Some 429)
        then emit EvLogRateLimit else ret tt) ;;;
       sleep (1000 * attempt) ;;;
       if MAX_RETRIES cfg <=? attempt then throw error else ret (inr attempt)).

(** [while (attempt < MAX_RETRIES) { ... }]; falling out of the loop
    returns [undefined]. *)
Fixpoint retryLoop (fuel : nat) (promptText model : string) (attempt : nat)
  : M (option string) :=
  match fuel with
  | O => stuck
  | S fuel' =>
    if attempt <? MAX_RETRIES cfg then
      r <- retryTurn promptText model attempt ;;
      match r with
      | inl t => ret (Some t)
      | inr attempt' => retryLoop fuel' promptText model attempt'
      end
    else ret None
  end.

Definition generateWithRetry (promptText model : string) : M (option string) :=
  retryLoop (S (MAX_RETRIES cfg)) promptText model 0.

(** The value of [{ success, name, error }] returned by [processFile]. *)
Record Result := mkResult {
  success : bool;
  name : string;
  error : option string
}.

(** [generateSafeFilename] slugs a file name (Unicode normalisation and
    regular expressions); nothing below depends on what the slug is. *)
Variable generateSafeFilename : string -> string.

(** [fs.writeFileSync(filePath, generatedContent, 'utf-8')]; Node rejects
    [undefined] data with a [TypeError] before touching the disk. *)
Definition writeGenerated (safeFilename : string) (content : option string)
  : M unit :=
  match content with
  | None => throw (Error "ERR_INVALID_ARG_TYPE")
  | Some c =>
    h <- history ;;
    emit (EvWriteFile safeFilename c) ;;;
    match writeFileSync env h safeFilename c with
    | Some e => throw e
    | None => ret tt
    end
  end.

(** [await axios.put(`${EXTERNAL_API_URL}/${file._id}`, {...})] *)
Definition markCompleted (id : string) : M unit :=
  h <- history ;;
  emit (EvPut id) ;;;
  match axios_put env h id with
  | Some e => throw e
  | None => ret tt
  end.

(** [processFile] of the batch tool: one [try] around the four stages, the
    [catch] turns any error into a failure result. *)
Definition processFile (file : File) (model : string) : M Result :=
  emit (EvLogProcessing (originalFilename file)) ;;;
  try_catch
    (h <- history ;;
     emit (EvGet (secureUrl file)) ;;;
     promptResponse <- await (axios_get env h (secureUrl file)) ;;
     let promptText := textOf promptResponse in
     generatedContent <- generateWithRetry promptText model ;;
     let safeFilename := generateSafeFilename (originalFilename file) in
     writeGenerated safeFilename generatedContent ;;;
     markCompleted (_id file) ;;;
     emit (EvLogDone safeFilename) ;;;
     ret {| success := true; name := safeFilename; error := None |})
    (fun err =>
       emit (EvLogFailed (originalFilename file) (message err)) ;;;
       ret {| success := false; name := originalFilename file;
              error := Some (message err) |}).

(** *** The worker queue

    [runQueue] starts [CONCURRENCY_LIMIT] copies of [worker], which share the
    cursor [index] and the array [results].  JavaScript runs a worker
    without interruption from one [await] to the next, so the test
    [index >= files.length] and the increment [index++] are one step.
    Between its awaits an item's pipeline touches neither the cursor nor the
    results, so the machine below runs the pipeline of an item in one step
    when the worker that awaits it is resumed; with one worker this is
    exactly the program. *)

Inductive Worker :=
  | Running (currentIndex : nat)
  | Finished
  | Crashed.

(** [claimed] and [origin] are ghost fields: the indices handed out so far,
    and for each entry of [results] the index of the item it came from. *)
Record Queue := mkQueue {
  index : nat;
  results : list Result;
  workers : list Worker;
  proc : State;
  claimed : list nat;
  origin : list nat
}.

Variable files : list File.
Variable model : string.

(** The head of the [while (true)] loop: leave when the cursor is at the
    end, otherwise take the item under the cursor and advance.  The result
    is what the worker does next. *)
Definition loopHead (q : Queue) : Worker * Queue :=
  if List.length files <=? index q then (Finished, q)
  else
    (Running (index q),
     {| index := index q + 1; results := results q; workers := workers q;
        proc := proc q; claimed := claimed q ++ [index q]; origin := origin q |}).

Definition setWorkers (ws : list Worker) (q : Queue) : Queue :=
  {| index := index q; results := results q; workers := ws;
     proc := proc q; claimed := claimed q; origin := origin q |}.

(** [worker()] is called: the new worker runs up to its first [await], or
    to the end if there is nothing left. *)
Definition spawn (q : Queue) : Queue :=
  let '(w, q) := loopHead q in setWorkers (workers q ++ [w]) q.

(** [Array.from({ length: CONCURRENCY_LIMIT }, () => worker())] *)
Definition startWorkers (s : State) : Queue :=
  Nat.iter (CONCURRENCY_LIMIT cfg) spawn
    {| index := 0; results := []; workers := []; proc := s;
       claimed := []; origin := [] |}.

(** Worker [w] is resumed: [processFile] has settled, its result is pushed
    and the loop goes round.  Resuming a worker that awaits nothing does
    nothing.  A worker whose [processFile] threw would reject its promise;
    [resume_consistent] shows that none does. *)
Definition resume (q : Queue) (w : nat) : Queue :=
  match workers q !! w with
  | Some (Running currentIndex) =>
    match files !! currentIndex with
    | Some file =>
      match processFile file model (proc q) with
      | (Return result, s') =>
        let '(next, q) := loopHead
          {| index := index q; results := results q ++ [result];
             workers := workers q; proc := s';
             claimed := claimed q; origin := origin q ++ [currentIndex] |} in
        setWorkers (<[w := next]> (workers q)) q
      | (_, s') =>
        setWorkers (<[w := Crashed]> (workers q))
          {| index := index q; results := results q; workers := workers q;
             proc := s'; claimed := claimed q; origin := origin q |}
      end
    | None => setWorkers (<[w := Crashed]> (workers q)) q
    end
  | _ => q
  end.

Definition allFinished (q : Queue) : bool :=
  forallb (fun w => match w with Finished => true | _ => false end) (workers q).

(** A run of the queue under a schedule: the workers are started, then
    resumed in the order the schedule names them. *)
Definition runSchedule (schedule : list nat) (s : State) : Queue :=
  foldl resume (startWorkers s) schedule.

(** [await Promise.all(workers); return results]: the results, once every
    worker has left its loop. *)
Definition settled (q : Queue) : option (list Result) :=
  if allFinished q then Some (results q) else None.

(** The first worker that awaits its item, if any. *)
Fixpoint firstRunning (ws : list Worker) (w : nat) : option nat :=
  match ws with
  | [] => None
  | Running _ :: _ => Some w
  | _ :: ws' => firstRunning ws' (S w)
  end.

(** One run of the event loop: keep resuming the first waiting worker. *)
Fixpoint drain (fuel : nat) (q : Queue) : Queue :=
  match fuel with
  | O => q
  | S fuel' =>
    match firstRunning (workers q) 0 with
    | Some w => drain fuel' (resume q w)
    | None => q
    end
  end.

Definition runQueue (s : State) : option (list Result * State) :=
  let q := drain (List.length files) (startWorkers s) in
  match settled q with
  | Some rs => Some (rs, proc q)
  | None => None
  end.

(** [k] calls of [getNextGemini] one after the other, and what each
    returned. *)
Fixpoint successive (k : nat) : M (list GoogleGenAI) :=
  match k with
  | O => ret []
  | S k' =>
    ai <- getNextGemini ;;
    rest <- successive k' ;;
    ret (ai :: rest)
  end.

End Program.

(** [let keyIndex = 0] and nothing done yet. *)
Definition initial : State := {| keyIndex := 0; trace := [] |}.

(** *** Vocabulary of the statements *)

Definition isGenerate (e : Event) : bool :=
  match e with
  | EvGenerate _ _ _ => true
  | _ => false
  end.

(** The number of generation calls in a history. *)
Definition attempts (tr : list Event) : nat :=
  List.length (List.filter isGenerate tr).

(** The error an attempt ends with, if it fails: the rejection of the call,
    or [Empty response] for a response without text. *)
Definition failureOf (r : Settled (option string)) : option JsError :=
  match r with
  | Rejected e => Some e
  | Resolved t => if truthy t then None else Some (Error "Empty response")
  end.

(** The generation call fails whenever it is made. *)
Definition alwaysFails (env : Env) : Prop :=
  forall h key model contents,
    is_Some (failureOf (generateContent env h key model contents)).

(** What the log and the backoff of a failed attempt add to the history. *)
Definition backoff (cfg : Config) (attempt : nat) (e : JsError) : list Event :=
  EvSleep (1000 * attempt)
  :: (if decide (response_status e = Some 429) then [EvLogRateLimit] else [])
  ++ [EvLogRetry attempt (MAX_RETRIES cfg)].

(** A computation that needs no more fuel than it is given. *)
Definition neverStuck {A} (m : M A) : Prop := forall s, fst (m s) <> Stuck.

(** The items the workers are waiting for. *)
Definition awaited (w : Worker) : option nat :=
  match w with
  | Running i => Some i
  | _ => None
  end.

Definition running (ws : list Worker) : list nat := omap awaited ws.

(** What holds of the queue at every moment of a run: the cursor has
    handed out the indices below it, once each and in order; every index
    handed out has produced its entry of [results] or is being waited for;
    no worker has crashed; and a worker leaves only at the end of the
    batch. *)
Definition consistent (files : list File) (q : Queue) : Prop :=
  claimed q = seq 0 (index q)
  /\ index q <= List.length files
  /\ List.length (results q) = List.length (origin q)
  /\ origin q ++ running (workers q) ≡ₚ claimed q
  /\ (forall w, workers q !! w <> Some Crashed)
  /\ (forall w, workers q !! w = Some Finished -> index q = List.length files).

(** Each entry of [results] is what [processFile] returned for the item
    recorded beside it in [origin]. *)
Definition attributed (cfg : Config) (apiKeys : list string) (env : Env)
    (generateSafeFilename : string -> string) (files : list File)
    (model : string) (q : Queue) : Prop :=
  Forall2
    (fun result i =>
       exists file s0 s1,
         files !! i = Some file
         /\ processFile cfg apiKeys env generateSafeFilename file model s0
             = (Return result, s1))
    (results q) (origin q).

End Batch.

(** * The server *)
Module Server.
Import Js.

Inductive Status := pending | processing | completed | failed.

#[global] Instance Status_eq_dec : EqDecision Status.
Proof. solve_decision. Defined.

(** [interface Job]; [result] holds [result.generatedUrl]. *)
Record Job := mkJob {
  id : string;
  fileId : string;
  status : Status;
  progress : nat;
  message : string;
  result : option string;
  error : option string;
  startTime : nat;
  endTime : option nat
}.

(** [Partial<Job>]: a field that is [None] is absent from the object. *)
Record Updates := mkUpdates {
  upd_id : option string;
  upd_fileId : option string;
  upd_status : option Status;
  upd_progress : option nat;
  upd_message : option string;
  upd_result : option string;
  upd_error : option string;
  upd_startTime : option nat;
  upd_endTime : option nat
}.

Definition noUpdates : Updates :=
  mkUpdates None None None None None None None None None.

(** The object literals [processFile] passes to [updateJob]. *)
Definition progressUpdate (st : option Status) (p : nat) (msg : string) : Updates :=
  mkUpdates None None st (Some p) (Some msg) None None None None.

(** What is written to a subscribed response stream. *)
Inductive SseData :=
  | SseProgress (step : Status) (progress : nat) (message : string) (jobId : string).

(** Calls that leave the process, and console output. *)
Inductive Call :=
  | CallGet (url : string)
  | CallGenerate (ai : GoogleGenAI) (model contents : string)
  | CallUpload (content fileId : string) (now : nat)
  | CallPut (fileId : string) (now : nat)
  | LogWarn (jobId : string)
  | LogError (jobId msg : string).

(** The process state: the two module-level maps, and the history of
    calls, newest first.  A client is represented by what has been written
    to its response stream, newest first.  [journal] is a ghost field: the
    value of a job after each write to it, newest first, under the key it
    is stored at. *)
Record World := mkWorld {
  jobs : gmap string Job;
  clients : gmap string (list SseData);
  calls : list Call;
  journal : list (string * Job)
}.

Definition terminal (st : Status) : bool :=
  match st with
  | completed | failed => true
  | _ => false
  end.

(** [Object.assign(job, updates)] *)
Definition assign (job : Job) (u : Updates) : Job :=
  {| id := default (id job) (upd_id u);
     fileId := default (fileId job) (upd_fileId u);
     status := default (status job) (upd_status u);
     progress := default (progress job) (upd_progress u);
     message := default (message job) (upd_message u);
     result := match upd_result u with Some r => Some r | None => result job end;
     error := match upd_error u with Some e => Some e | None => error job end;
     startTime := default (startTime job) (upd_startTime u);
     endTime := match upd_endTime u with Some t => Some t | None => endTime job end |}.

Definition stampEnd (job : Job) (now : nat) : Job :=
  {| id := id job; fileId := fileId job; status := status job;
     progress := progress job; message := message job; result := result job;
     error := error job; startTime := startTime job; endTime := Some now |}.

(** [updateJob]: merge the updates into the stored job, stamp [endTime]
    when the updates carry a terminal status, then write the job to the
    client subscribed to its file, if there is one.  [now] is [Date.now()]. *)
Definition updateJob (now : nat) (jobId : string) (updates : Updates)
    (w : World) : World :=
  match jobs w !! jobId with
  | None => w
  | Some job =>
    let job := assign job updates in
    let job :=
      if decide (upd_status updates = Some completed \/ upd_status updates = Some failed)
      then stampEnd job now else job in
    let data := SseProgress (status job) (progress job) (message job) (id job) in
    {| jobs := <[jobId := job]> (jobs w);
       clients :=
         match clients w !! fileId job with
         | Some written => <[fileId job := data :: written]> (clients w)
         | None => clients w
         end;
       calls := calls w;
       journal := (jobId, job) :: journal w |}
  end.

Definition record (c : Call) (w : World) : World :=
  {| jobs := jobs w; clients := clients w; calls := c :: calls w;
     journal := journal w |}.

(** [k && !k.includes('YOUR_API_KEY') && k !== 'MY_GEMINI_API_KEY'] *)
Definition validKey (k : string) : bool :=
  truthy (Some k) && negb (includes k "YOUR_API_KEY")
  && negb (String.eqb k "MY_GEMINI_API_KEY").

(** [getGemini].  [rnd] is the value of
    [Math.floor(Math.random() * validKeys.length)], which lies below the
    length; [GEMINI_API_KEY] is the environment variable. *)
Definition getGemini (GEMINI_API_KEY : option string) (rnd : nat)
    (providedKeys : option (list string)) : GoogleGenAI + JsError :=
  let fromEnv :=
    match GEMINI_API_KEY with
    | Some apiKey =>
      if negb (truthy (Some apiKey)) then
        inr (Error "GEMINI_API_KEY is not defined in environment variables and no valid keys were provided in the request.")
      else if String.eqb apiKey "MY_GEMINI_API_KEY" || includes apiKey "YOUR_API_KEY" then
        inr (Error "Invalid GEMINI_API_KEY detected. Please configure your API key.")
      else inl (mkGenAI (Some apiKey))
    | None =>
      inr (Error "GEMINI_API_KEY is not defined in environment variables and no valid keys were provided in the request.")
    end in
  match providedKeys with
  | Some providedKeys =>
    if 0 <? List.length providedKeys then
      let validKeys := List.filter validKey providedKeys in
      if 0 <? List.length validKeys then
        let randomKey := validKeys !! rnd in
        inl (mkGenAI randomKey)
      else fromEnv
    else fromEnv
  | None => fromEnv
  end.

(** The [config] argument of [processFile]. *)
Record Config := mkConfig {
  cloudName : string;
  cloudApiKey : string;
  apiSecret : string;
  geminiApiKeys : option (list string);
  model : option string
}.

(** [config.model || 'gemini-3-flash-preview'] *)
Definition selectedModel (config : Config) : string :=
  match model config with
  | Some m => if truthy (Some m) then m else "gemini-3-flash-preview"
  | None => "gemini-3-flash-preview"
  end.

(** *** [processFile], cut at its awaits

    An invocation runs without interruption up to an [await]; there it is
    suspended, and other handlers and timers of the process may run before
    the awaited promise settles.  Each definition below is one such
    uninterrupted segment. *)

Inductive Awaiting :=
  | AwaitFetch
  | AwaitGenerate
  | AwaitUpload (generatedContent : string)
  | AwaitPut (generatedContent secure_url : string).

Record Invocation := mkInvocation {
  inv_jobId : string;
  inv_fileId : string;
  inv_fileUrl : string;
  inv_config : Config;
  awaiting : Awaiting
}.

(** How an invocation ends: the returned object, or the rethrown error. *)
Inductive Outcome :=
  | Success (jobId fileId generatedUrl content : string)
  | Failure (e : JsError).

Definition suspend (inv : Invocation) (a : Awaiting) : Invocation :=
  {| inv_jobId := inv_jobId inv; inv_fileId := inv_fileId inv;
     inv_fileUrl := inv_fileUrl inv; inv_config := inv_config inv;
     awaiting := a |}.

(** The outer [catch]: mark the job failed and rethrow. *)
Definition fail (now : nat) (inv : Invocation) (e : JsError) (w : World)
  : World * (Invocation + Outcome) :=
  let w := record (LogError (inv_jobId inv) (Js.message e)) w in
  let w := updateJob now (inv_jobId inv)
    (mkUpdates None None (Some failed) (Some 0)
       (Some (if truthy (Some (Js.message e)) then Js.message e else "An error occurred"))
       None (Some (Js.message e)) None None) w in
  (w, inr (Failure e)).

(** From the call to the first [await]: create the job under a fresh
    [randomUUID()], move it to [processing], start the download. *)
Definition start (uuid : string) (now : nat) (fileId fileUrl : string)
    (config : Config) (w : World) : World * Invocation :=
  let jobId := uuid in
  let job := {| id := jobId; fileId := fileId; status := pending; progress := 0;
                message := "Job created"; result := None; error := None;
                startTime := now; endTime := None |} in
  let w := {| jobs := <[jobId := job]> (jobs w); clients := clients w;
              calls := calls w; journal := (jobId, job) :: journal w |} in
  let w := updateJob now jobId (progressUpdate (Some processing) 5 "Starting processing...") w in
  let w := updateJob now jobId (progressUpdate None 10 "Fetching prompt from source...") w in
  let w := record (CallGet fileUrl) w in
  (w, mkInvocation jobId fileId fileUrl config AwaitFetch).

(** The download has settled. *)
Definition fetched (GEMINI_API_KEY : option string) (rnd now : nat)
    (inv : Invocation) (r : Settled ResponseData) (w : World)
  : World * (Invocation + Outcome) :=
  match r with
  | Rejected fetchError =>
    fail now inv (Error ("Failed to fetch prompt file: " +:+ Js.message fetchError)) w
  | Resolved data =>
    let promptText := textOf data in
    let w := updateJob now (inv_jobId inv)
               (progressUpdate None 30 "Generating content with Gemini...") w in
    match getGemini GEMINI_API_KEY rnd (geminiApiKeys (inv_config inv)) with
    | inr e => fail now inv e w
    | inl ai =>
      let w := record (CallGenerate ai (selectedModel (inv_config inv)) promptText) w in
      (w, inl (suspend inv AwaitGenerate))
    end
  end.

(** The generation call has settled; [text] is [result.text]. *)
Definition generated (now : nat) (inv : Invocation)
    (r : Settled (option string)) (w : World)
  : World * (Invocation + Outcome) :=
  match r with
  | Rejected geminiError =>
    fail now inv (Error ("Gemini generation failed: " +:+ Js.message geminiError)) w
  | Resolved text =>
    let generatedContent := if truthy text then default "" text else "" in
    if negb (truthy (Some generatedContent)) then
      fail now inv
        (Error ("Gemini generation failed: " +:+ Js.message (Error "Gemini returned empty content"))) w
    else
      let w := updateJob now (inv_jobId inv)
                 (progressUpdate None 70 "Uploading to Cloudinary...") w in
      let w := record (CallUpload generatedContent (inv_fileId inv) now) w in
      (w, inl (suspend inv (AwaitUpload generatedContent)))
  end.

(** The upload has settled; the resolved value is [uploadResult.secure_url]. *)
Definition uploaded (now : nat) (inv : Invocation) (generatedContent : string)
    (r : Settled string) (w : World) : World * (Invocation + Outcome) :=
  match r with
  | Rejected cloudinaryError =>
    fail now inv (Error ("Cloudinary upload failed: " +:+ Js.message cloudinaryError)) w
  | Resolved secure_url =>
    let w := updateJob now (inv_jobId inv)
               (progressUpdate None 90 "Updating external API status...") w in
    let w := record (CallPut (inv_fileId inv) now) w in
    (w, inl (suspend inv (AwaitPut generatedContent secure_url)))
  end.

(** The status call to the external store has settled: a rejection is only
    warned about, the job completes either way. *)
Definition reconciled (now : nat) (inv : Invocation)
    (generatedContent secure_url : string) (r : Settled unit) (w : World)
  : World * (Invocation + Outcome) :=
  let w := match r with
           | Rejected apiError => record (LogWarn (inv_jobId inv)) w
           | Resolved _ => w
           end in
  let w := updateJob now (inv_jobId inv)
    (mkUpdates None None (Some completed) (Some 100)
       (Some "Process completed successfully!") (Some secure_url) None None None) w in
  (w, inr (Success (inv_jobId inv) (inv_fileId inv) secure_url generatedContent)).

(** What the outside world delivers to one invocation: the identifier
    drawn by [randomUUID()], the clock at each segment, the random draw of
    [getGemini] and the four settled promises. *)
Record Script := mkScript {
  uuid : string;
  clock : nat -> nat;
  rnd : nat;
  fetchResponse : Settled ResponseData;
  generateResponse : Settled (option string);
  uploadResponse : Settled string;
  putResponse : Settled unit
}.

(** Resume a suspended invocation with the promise it awaits. *)
Definition resume (GEMINI_API_KEY : option string) (sc : Script) (seg : nat)
    (inv : Invocation) (w : World) : World * (Invocation + Outcome) :=
  match awaiting inv with
  | AwaitFetch => fetched GEMINI_API_KEY (rnd sc) (clock sc seg) inv (fetchResponse sc) w
  | AwaitGenerate => generated (clock sc seg) inv (generateResponse sc) w
  | AwaitUpload c => uploaded (clock sc seg) inv c (uploadResponse sc) w
  | AwaitPut c url => reconciled (clock sc seg) inv c url (putResponse sc) w
  end.

(** Run a suspended invocation to its end.  There are four awaits, so four
    resumptions always suffice; the result is [None] if they did not. *)
Fixpoint finish (fuel : nat) (GEMINI_API_KEY : option string) (sc : Script)
    (seg : nat) (inv : Invocation) (w : World) : World * option Outcome :=
  match fuel with
  | O => (w, None)
  | S fuel' =>
    match resume GEMINI_API_KEY sc seg inv w with
    | (w', inl inv') => finish fuel' GEMINI_API_KEY sc (S seg) inv' w'
    | (w', inr out) => (w', Some out)
    end
  end.

(** One whole invocation of [processFile], with nothing else of the
    process running in between. *)
Definition processFile (GEMINI_API_KEY : option string) (sc : Script)
    (fileId fileUrl : string) (config : Config) (w : World)
  : World * option Outcome :=
  let '(w, inv) := start (uuid sc) (clock sc 0) fileId fileUrl config w in
  finish 4 GEMINI_API_KEY sc 1 inv w.

(** *** The two callers of [processFile] *)

(** The handler of [POST /api/generate] up to the first await: a request
    without [fileId], [fileUrl] or [cloudinaryConfig] is answered 400,
    any other starts [processFile]. *)
Definition postGenerate (uuid : string) (now : nat)
    (fileId fileUrl : option string) (config : option Config) (w : World)
  : World * option Invocation :=
  match fileId, fileUrl, config with
  | Some fileId, Some fileUrl, Some config =>
    if truthy (Some fileId) && truthy (Some fileUrl) then
      let '(w, inv) := start uuid now fileId fileUrl config w in (w, Some inv)
    else (w, None)
  | _, _, _ => (w, None)
  end.

(** A record of the external store, as [runAutomation] reads it. *)
Record FileRecord := mkFileRecord {
  file_id : string;
  file_secureUrl : string;
  file_status : string
}.

Definition nonTerminal (j : Job) : Prop :=
  status j = processing \/ status j = pending.

(** [Array.from(jobs.values()).some(j => j.fileId === file.id &&
    (j.status === 'processing' || j.status === 'pending'))] *)
Definition isProcessing (w : World) (fid : string) : bool :=
  bool_decide (map_Exists (fun _ j => fileId j = fid /\ nonTerminal j) (jobs w)).

(** One turn of the [for] loop of [runAutomation] up to the first await:
    skip a file that has a job in flight, start [processFile] otherwise. *)
Definition submit (AUTO_CONFIG : Config) (uuid : string) (now : nat)
    (file : FileRecord) (w : World) : World * option Invocation :=
  if isProcessing w (file_id file) then (w, None)
  else
    let '(w, inv) := start uuid now (file_id file) (file_secureUrl file) AUTO_CONFIG w in
    (w, Some inv).

(** One turn of the loop when nothing else runs in between: the error of a
    failed [processFile] is caught and logged. *)
Definition visit (AUTO_CONFIG : Config) (GEMINI_API_KEY : option string)
    (sc : Script) (file : FileRecord) (w : World) : World :=
  match submit AUTO_CONFIG (uuid sc) (clock sc 0) file w with
  | (w, None) => w
  | (w, Some inv) => fst (finish 4 GEMINI_API_KEY sc 1 inv w)
  end.

(** [runAutomation] when nothing else runs in between: list the files, keep
    the pending ones, visit each in turn; a failed listing is only logged.
    [scripts i] is what the world delivers to the i-th pending file. *)
Definition runAutomation (AUTO_CONFIG : Config) (GEMINI_API_KEY : option string)
    (listing : Settled (list FileRecord)) (scripts : nat -> Script)
    (w : World) : World :=
  match listing with
  | Rejected _ => w
  | Resolved files =>
    let pendingFiles := List.filter (fun f => String.eqb (file_status f) "Pending") files in
    foldl (fun w '(i, file) => visit AUTO_CONFIG GEMINI_API_KEY (scripts i) file w)
          w (imap (fun i f => (i, f)) pendingFiles)
  end.

(** *** Vocabulary of the statements *)

(** No two distinct entries of the store are in flight for the same file. *)
Definition dedup (w : World) : Prop :=
  forall i1 i2 j1 j2,
    jobs w !! i1 = Some j1 -> jobs w !! i2 = Some j2 ->
    fileId j1 = fileId j2 -> nonTerminal j1 -> nonTerminal j2 -> i1 = i2.

(** The successive values of the job stored at [jobId], oldest first. *)
Definition lifetime (jobId : string) (w : World) : list Job :=
  rev (omap (fun e => if String.eqb (fst e) jobId then Some (snd e) else None)
            (journal w)).

(** The part of a job's lifetime written since the world [w0]. *)
Definition since (w0 w : World) (jobId : string) : list Job :=
  drop (List.length (lifetime jobId w0)) (lifetime jobId w).

Definition isPut (fid : string) (c : Call) : bool :=
  match c with
  | CallPut f _ => String.eqb f fid
  | _ => false
  end.

(** What one call of [updateJob] makes of the job it finds. *)
Definition merged (now : nat) (u : Updates) (job : Job) : Job :=
  if decide (upd_status u = Some completed \/ upd_status u = Some failed)
  then stampEnd (assign job u) now else assign job u.

(** The progress never goes down from one value to the next, except into
    a [failed] job. *)
Fixpoint monotoneUnlessFailed (js : list Job) : bool :=
  match js with
  | a :: (b :: _) as rest =>
    ((progress a <=? progress b) || bool_decide (status b = failed))
    && monotoneUnlessFailed rest
  | _ => true
  end.

(** The status follows [pending -> processing -> completed | failed]: a
    status is kept or followed by a later one, and nothing follows a
    terminal status. *)
Definition legalStep (a b : Status) : bool :=
  match a, b with
  | pending, processing => true
  | processing, (processing | completed | failed) => true
  | _, _ => false
  end.

Fixpoint legalPath (sts : list Status) : bool :=
  match sts with
  | a :: (b :: _) as rest => legalStep a b && legalPath rest
  | _ => true
  end.

(** All that an invocation reads or writes of the world: the job under its
    identifier, the calls and the journal. *)
Definition view (jobId : string) (w : World)
  : option Job * list Call * list (string * Job) :=
  (jobs w !! jobId, calls w, journal w).

End Server.

(** * Concrete inputs

    Small worlds on which the statements below are run. *)
Module Examples.
Import Js.

(** A provider that rejects every call as rate-limited. *)
Definition failingEnv : Batch.Env :=
  {| Batch.generateContent := fun _ _ _ _ => Rejected (mkError "Too Many Requests" (Some 429));
     Batch.axios_get := fun _ _ => Resolved (DataString "Write about tea.");
     Batch.writeFileSync := fun _ _ _ => None;
     Batch.axios_put := fun _ _ => None |}.

(** A provider that answers every call with an empty text. *)
Definition emptyEnv : Batch.Env :=
  {| Batch.generateContent := fun _ _ _ _ => Resolved (Some "");
     Batch.axios_get := fun _ _ => Resolved (DataString "Write about tea.");
     Batch.writeFileSync := fun _ _ _ => None;
     Batch.axios_put := fun _ _ => None |}.

(** Everything works except the status call to the external store. *)
Definition putFailsEnv : Batch.Env :=
  {| Batch.generateContent := fun _ _ _ _ => Resolved (Some "Tea is a drink.");
     Batch.axios_get := fun _ _ => Resolved (DataString "Write about tea.");
     Batch.writeFileSync := fun _ _ _ => None;
     Batch.axios_put := fun _ _ => Some (Error "Request failed with status code 500") |}.

(** The second file cannot be downloaded; the rest works. *)
Definition secondFetchFailsEnv : Batch.Env :=
  {| Batch.generateContent := fun _ _ _ _ => Resolved (Some "Tea is a drink.");
     Batch.axios_get := fun _ url =>
       if String.eqb url "https://src/b" then Rejected (Error "Network Error")
       else Resolved (DataString "Write about tea.");
     Batch.writeFileSync := fun _ _ _ => None;
     Batch.axios_put := fun _ _ => None |}.

(** A stand-in for the slug of a file name. *)
Definition slug (originalFilename : string) : string := originalFilename +:+ ".mdx".

Definition teaFile : Batch.File :=
  {| Batch._id := "a"; Batch.originalFilename := "tea.txt";
     Batch.secureUrl := "https://src/a"; Batch.status := "Pending" |}.

Definition threeFiles : list Batch.File :=
  [teaFile;
   {| Batch._id := "b"; Batch.originalFilename := "mate.txt";
      Batch.secureUrl := "https://src/b"; Batch.status := "Pending" |};
   {| Batch._id := "c"; Batch.originalFilename := "chai.txt";
      Batch.secureUrl := "https://src/c"; Batch.status := "Pending" |}].


Definition demoConfig : Server.Config :=
  {| Server.cloudName := "demo"; Server.cloudApiKey := "key";
     Server.apiSecret := "secret";
     Server.geminiApiKeys := Some ["k1"; "k2"]; Server.model := None |}.

Definition emptyWorld : Server.World :=
  {| Server.jobs := ∅; Server.clients := ∅; Server.calls := [];
     Server.journal := [] |}.

Definition fileX : Server.FileRecord :=
  {| Server.file_id := "X"; Server.file_secureUrl := "https://src/X";
     Server.file_status := "Pending" |}.

(** A run in which every stage succeeds. *)
Definition okScript : Server.Script :=
  {| Server.uuid := "job-1"; Server.clock := fun seg => 100 + seg; Server.rnd := 1;
     Server.fetchResponse := Resolved (DataString "Write about tea.");
     Server.generateResponse := Resolved (Some "Tea is a drink.");
     Server.uploadResponse := Resolved "https://cdn/article_X.mdx";
     Server.putResponse := Resolved tt |}.

(** The same run, with the status call to the external store rejected. *)
Definition putFailsScript : Server.Script :=
  {| Server.uuid := "job-1"; Server.clock := fun seg => 100 + seg; Server.rnd := 1;
     Server.fetchResponse := Resolved (DataString "Write about tea.");
     Server.generateResponse := Resolved (Some "Tea is a drink.");
     Server.uploadResponse := Resolved "https://cdn/article_X.mdx";
     Server.putResponse := Rejected (Error "Request failed with status code 500") |}.

(** A run in which the source cannot be downloaded. *)
Definition fetchFailsScript : Server.Script :=
  {| Server.uuid := "job-1"; Server.clock := fun seg => 100 + seg; Server.rnd := 0;
     Server.fetchResponse := Rejected (Error "Network Error");
     Server.generateResponse := Resolved (Some "Tea is a drink.");
     Server.uploadResponse := Resolved "https://cdn/article_X.mdx";
     Server.putResponse := Resolved tt |}.

(** A job that has completed. *)
Definition doneJob : Server.Job :=
  {| Server.id := "j1"; Server.fileId := "f1"; Server.status := Server.completed;
     Server.progress := 100; Server.message := "Process completed successfully!";
     Server.result := Some "https://cdn/article_f1.mdx"; Server.error := None;
     Server.startTime := 1; Server.endTime := Some 2 |}.

Definition doneWorld : Server.World :=
  {| Server.jobs := {["j1" := doneJob]}; Server.clients := ∅; Server.calls := [];
     Server.journal := [] |}.

End Examples.

(** * The rest of the batch tool: the report and [run] *)
Module BatchMain.
Import Js Batch.

(** The line feed of the template literals. *)
Definition nl : string := String (Ascii.ascii_of_nat 10) "".

(** [lines.join('\n')] *)
Fixpoint joinLines (lines : list string) : string :=
  match lines with
  | [] => ""
  | [l] => l
  | l :: rest => l +:+ nl +:+ joinLines rest
  end.

(** [s.endsWith(suffix)] *)
Definition endsWith (s suffix : string) : bool :=
  String.prefix (String.rev suffix) (String.rev s).

Record FolderStats := mkFolderStats {
  totalFiles : nat;
  mdxFiles : nat
}.

(** [getFolderStats]; the directory is [None] when [fs.existsSync] says it
    is not there, otherwise what [fs.readdirSync] lists. *)
Definition getFolderStats (dir : option (list string)) : FolderStats :=
  match dir with
  | None => {| totalFiles := 0; mdxFiles := 0 |}
  | Some files =>
    let mdxFiles := List.length (List.filter (fun f => endsWith f ".mdx") files) in
    {| totalFiles := List.length files; mdxFiles := mdxFiles |}
  end.

(** What is handed to [transporter.sendMail]; sender and recipient are
    constants of the environment. *)
Record Mail := mkMail {
  subject : string;
  text : string
}.

(** The environment of [run]: the listing of the external store, the mail
    settings, the clock and the output folder.  [sendMail] sees the mails
    handed over before. *)
Record MainEnv := mkMainEnv {
  listFiles : Settled (list File);
  GEMINI_MODEL : option string;
  EMAIL_HOST : option string;
  sendMail : list Mail -> Mail -> option JsError;
  dateTimeStr : string;
  readGeneratedDir : option (list string)
}.

(** [sendEmail]: nothing without [EMAIL_HOST]; otherwise the mail is handed
    to the transporter, whose error is thrown.  The result is the error
    thrown, if any, and the mails handed over so far, newest first. *)
Definition sendEmail (menv : MainEnv) (subject text : string) (outbox : list Mail)
  : option JsError * list Mail :=
  if negb (truthy (EMAIL_HOST menv)) then (None, outbox)
  else
    let mail := {| subject := subject; text := text |} in
    (sendMail menv outbox mail, mail :: outbox).

(** The subject and the body that [sendBatchEmail] builds. *)
Definition reportSubject (menv : MainEnv) (success failed : list Result) : string :=
  "Content Generation Report Api- 5 - " +:+ dateTimeStr menv +:+ " - "
  +:+ pretty (List.length success) +:+ " Success, "
  +:+ pretty (List.length failed) +:+ " Failed".

Definition reportBody (menv : MainEnv) (success failed : list Result) : string :=
  let folderStats := getFolderStats (readGeneratedDir menv) in
  nl +:+ "Multi-Key Api Number 5 Content Generation Report" +:+ nl
  +:+ "----------------------------------" +:+ nl
  +:+ "Date & Time (BDT): " +:+ dateTimeStr menv +:+ nl
  +:+ "Total Processed: " +:+ pretty (List.length success + List.length failed) +:+ nl
  +:+ "Success: " +:+ pretty (List.length success) +:+ nl
  +:+ "Failed: " +:+ pretty (List.length failed) +:+ nl
  +:+ nl
  +:+ "Successful Files:" +:+ nl
  +:+ joinLines (List.map (fun f => "- " +:+ name f) success) +:+ nl
  +:+ nl
  +:+ "Failed Files:" +:+ nl
  +:+ joinLines (List.map
        (fun f => "- " +:+ name f +:+ " (" +:+ default "undefined" (error f) +:+ ")")
        failed) +:+ nl
  +:+ nl
  +:+ "Folder Stats:" +:+ nl
  +:+ "- Total files in folder: " +:+ pretty (totalFiles folderStats) +:+ nl
  +:+ "- Total MDX files: " +:+ pretty (mdxFiles folderStats) +:+ nl
  +:+ nl
  +:+ "Generated content has been saved to the repository." +:+ nl.

(** [sendBatchEmail] *)
Definition sendBatchEmail (menv : MainEnv) (success failed : list Result)
    (outbox : list Mail) : option JsError * list Mail :=
  sendEmail menv (reportSubject menv success failed)
    (reportBody menv success failed) outbox.

(** How [run] ends: it returns, it calls [process.exit(1)], its last
    [sendEmail] throws out of the [catch], or (in the model only) the
    queue never settles. *)
Inductive Exit :=
  | Returned
  | Exit1
  | Unhandled (e : JsError)
  | NeverSettles.

Definition EXTERNAL_API_URL : string :=
  "https://cloud-text-manager-server.vercel.app/api/all-files".

(** The [catch] of [run]. *)
Definition fatal (menv : MainEnv) (error : JsError) (s : State) (outbox : list Mail)
  : Exit * State * list Mail :=
  match sendEmail menv "Batch Failed" (message error) outbox with
  | (None, outbox) => (Exit1, s, outbox)
  | (Some e, outbox) => (Unhandled e, s, outbox)
  end.

(** [response.data.filter(f => f.status === 'Pending').slice(0, BATCH_SIZE)] *)
Definition pendingBatch (cfg : Config) (data : list File) : list File :=
  take (BATCH_SIZE cfg)
       (List.filter (fun f => String.eqb (status f) "Pending") data).

(** [process.env.GEMINI_MODEL || 'gemini-3-flash-preview'] *)
Definition modelOf (menv : MainEnv) : string :=
  if truthy (GEMINI_MODEL menv) then default "" (GEMINI_MODEL menv)
  else "gemini-3-flash-preview".

(** The state once the listing has been asked for. *)
Definition listed (s : State) : State :=
  {| keyIndex := keyIndex s; trace := EvGet EXTERNAL_API_URL :: trace s |}.

(** [run]: list the files, keep the first [BATCH_SIZE] pending ones, run
    the queue over them, split the results and mail the report. *)
Definition run (cfg : Config) (apiKeys : list string) (env : Env)
    (generateSafeFilename : string -> string) (menv : MainEnv) (s : State)
  : Exit * State * list Mail :=
  let s := listed s in
  match listFiles menv with
  | Rejected error => fatal menv error s []
  | Resolved data =>
    let pendingFiles := pendingBatch cfg data in
    if List.length pendingFiles =? 0 then (Returned, s, [])
    else
      let model := modelOf menv in
      match runQueue cfg apiKeys env generateSafeFilename pendingFiles model s with
      | None => (NeverSettles, s, [])
      | Some (results, s) =>
        let success := List.filter (fun r => success r) results in
        let failed := List.filter (fun r => negb (Batch.success r)) results in
        match sendBatchEmail menv success failed [] with
        | (None, outbox) => (Returned, s, outbox)
        | (Some error, outbox) => fatal menv error s outbox
        end
      end
  end.

(** *** Vocabulary of the statements *)

(** The keys the generation calls of a history were made with, newest
    first. *)
Definition keysUsed (tr : list Event) : list (option string) :=
  omap (fun e => match e with EvGenerate key _ _ => Some key | _ => None end) tr.

(** The time a history spends in [sleep], in milliseconds. *)
Definition slept (tr : list Event) : nat :=
  foldr (fun e acc => match e with EvSleep ms => ms + acc | _ => acc end) 0 tr.

(** The calls of a history to the source, the disk and the external store,
    oldest first. *)
Definition isEffect (e : Event) : bool :=
  match e with
  | EvGet _ | EvWriteFile _ _ | EvPut _ => true
  | _ => false
  end.

Definition effects (tr : list Event) : list Event := rev (List.filter isEffect tr).

(** The result is what [processFile] returned for the file. *)
Definition resultOf (cfg : Config) (apiKeys : list string) (env : Env)
    (generateSafeFilename : string -> string) (model : string)
    (r : Result) (file : File) : Prop :=
  exists s0 s1,
    processFile cfg apiKeys env generateSafeFilename file model s0 = (Return r, s1).

End BatchMain.

(** * The rest of the server: the stats endpoint *)
Module ServerApi.
Import Js Server.

(** The number of jobs in a given state:
    [Array.from(jobs.values()).filter(j => j.status === st).length]. *)
Definition countStatus (st : Status) (w : World) : nat :=
  size (filter (fun kv => status kv.2 = st) (jobs w)).

(** The body of the response of [GET /api/stats], without the uptime of
    the process. *)
Record Stats := mkStats {
  activeJobs : nat;
  completedJobs : nat;
  failedJobs : nat;
  totalJobs : nat
}.

Definition stats (w : World) : Stats :=
  {| activeJobs := countStatus processing w;
     completedJobs := countStatus completed w;
     failedJobs := countStatus failed w;
     totalJobs := size (jobs w) |}.

(** *** Vocabulary of the statements *)

(** What [updateJob] writes to a subscribed client for a job. *)
Definition eventOf (j : Job) : SseData :=
  SseProgress (status j) (progress j) (message j) (id j).

(** The calls made since the world [w0], oldest first. *)
Definition callsSince (w0 w : World) : list Call :=
  rev (take (List.length (calls w) - List.length (calls w0)) (calls w)).

(** The calls that leave the process, by the stage of the pipeline that
    makes them. *)
Inductive Stage := StageFetch | StageGenerate | StageUpload | StageReconcile.

Definition stageOf (c : Call) : option Stage :=
  match c with
  | CallGet _ => Some StageFetch
  | CallGenerate _ _ _ => Some StageGenerate
  | CallUpload _ _ _ => Some StageUpload
  | CallPut _ _ => Some StageReconcile
  | _ => None
  end.

Definition pipelineStages : list Stage :=
  [StageFetch; StageGenerate; StageUpload; StageReconcile].

Definition isExternal (c : Call) : bool :=
  match stageOf c with
  | Some _ => true
  | None => false
  end.

(** The addresses prompts were downloaded from. *)
Definition fetchedUrl (c : Call) : option string :=
  match c with
  | CallGet url => Some url
  | _ => None
  end.

(** The files of a listing that [runAutomation] keeps. *)
Definition pendingFiles (files : list FileRecord) : list FileRecord :=
  List.filter (fun f => String.eqb (file_status f) "Pending") files.

(** A job of the store is in flight. *)
Definition inFlight (w : World) (i : string) (j : Job) : Prop :=
  jobs w !! i = Some j /\ nonTerminal j.

(** No job of the store is in flight. *)
Definition quiescent (w : World) : Prop :=
  forall i j, jobs w !! i = Some j -> terminal (status j) = true.

(** The two maps of a world. *)
Definition storeIs (w : World) (js : gmap string Job)
    (cs : gmap string (list SseData)) : Prop :=
  jobs w = js /\ clients w = cs.

End ServerApi.

(** * More concrete inputs *)
Module Scenarios.
Import Js.

(** Everything the batch tool calls works. *)
Definition goodEnv : Batch.Env :=
  {| Batch.generateContent := fun _ _ _ _ => Resolved (Some "Tea is a drink.");
     Batch.axios_get := fun _ _ => Resolved (DataString "Write about tea.");
     Batch.writeFileSync := fun _ _ _ => None;
     Batch.axios_put := fun _ _ => None |}.

(** The listing of the external store: three pending files and one that
    has been generated already. *)
Definition listing : list Batch.File :=
  {| Batch._id := "z"; Batch.originalFilename := "done.txt";
     Batch.secureUrl := "https://src/z"; Batch.status := "AlreadyCopy" |}
  :: Examples.threeFiles.

(** Mail is configured and the transporter takes every mail. *)
Definition mailEnv : BatchMain.MainEnv :=
  {| BatchMain.listFiles := Resolved listing;
     BatchMain.GEMINI_MODEL := None;
     BatchMain.EMAIL_HOST := Some "smtp.example.org";
     BatchMain.sendMail := fun _ _ => None;
     BatchMain.dateTimeStr := "1/5/2026, 10:00:00 AM";
     BatchMain.readGeneratedDir := Some ["tea.txt.mdx"; "notes.txt"] |}.

(** A client listens to file [X]; nothing has been written to it yet. *)
Definition watchedWorld : Server.World :=
  {| Server.jobs := ∅; Server.clients := {["X" := []]}; Server.calls := [];
     Server.journal := [] |}.



(** The listing as the server reads it: two pending files and one that
    has been generated already. *)
Definition fileY : Server.FileRecord :=
  {| Server.file_id := "Y"; Server.file_secureUrl := "https://src/Y";
     Server.file_status := "Pending" |}.

Definition fileZ : Server.FileRecord :=
  {| Server.file_id := "Z"; Server.file_secureUrl := "https://src/Z";
     Server.file_status := "AlreadyCopy" |}.

(** What the world delivers to the i-th file of a pass: every stage
    succeeds, under a new identifier each time. *)
Definition scripts (i : nat) : Server.Script :=
  {| Server.uuid := "job-" +:+ pretty i; Server.clock := fun seg => 100 * i + seg;
     Server.rnd := 0;
     Server.fetchResponse := Resolved (DataString "Write about tea.");
     Server.generateResponse := Resolved (Some "Tea is a drink.");
     Server.uploadResponse := Resolved "https://cdn/article.mdx";
     Server.putResponse := Resolved tt |}.

End Scenarios.

(** * Properties of the batch tool *)
Section BatchFacts.
Import Js Batch.

Variable cfg : Config.
Variable apiKeys : list string.
Variable env : Env.

Lemma attempts_app (l1 l2 : list Event) :
  attempts (l1 ++ l2) = attempts l1 + attempts l2.
Proof. unfold attempts. by rewrite List.filter_app, length_app. Qed.

Lemma attempts_backoff (a : nat) (e : JsError) : attempts (backoff cfg a e) = 0.
Proof. unfold backoff. by destruct (decide _). Qed.

(** One turn of the retry loop, in closed form: the key under the index is
    used, the index advances, and the attempt either returns its text or
    fails, is logged, backs off, and throws if it was the last one.  (An
    attempt does not fail only if the call resolved with a text, see
    [failureOf_None]; the [Stuck] below stands in the branch that cannot
    be taken.) *)
Lemma retryTurn_spec (promptText model : string) (a : nat) (s : State) :
  let key := apiKeys !! keyIndex s in
  let h := EvSleep (REQUEST_DELAY cfg) :: trace s in
  let r := generateContent env h key model promptText in
  let next := (keyIndex s + 1) mod List.length apiKeys in
  retryTurn cfg apiKeys env promptText model a s =
    match failureOf r with
    | None =>
      (match r with
       | Resolved (Some t) => Return (inl t)
       | _ => Stuck
       end,
       {| keyIndex := next; trace := EvGenerate key model promptText :: h |})
    | Some e =>
      (if MAX_RETRIES cfg <=? a + 1 then Throw e else Return (inr (a + 1)),
       {| keyIndex := next;
          trace := backoff cfg (a + 1) e ++ EvGenerate key model promptText :: h |})
    end.
Proof.
  intros key h r next. subst r.
  unfold retryTurn, try_catch, backoff, bind, getNextGemini, sleep, callGenerate,
    bind, history, emit, await. simpl.
  fold key. fold h. fold next.
  destruct (generateContent env h key model promptText) as [[t|]|e]; simpl.
  - destruct t as [|c t]; simpl.
    + unfold throw, ret; simpl.
      destruct (MAX_RETRIES cfg <=? a + 1); reflexivity.
    + reflexivity.
  - unfold throw, ret; simpl.
    destruct (MAX_RETRIES cfg <=? a + 1); reflexivity.
  - unfold throw, ret. destruct (decide (response_status e = Some 429)); simpl;
      destruct (MAX_RETRIES cfg <=? a + 1); reflexivity.
Qed.

Lemma failureOf_None (r : Settled (option string)) :
  failureOf r = None -> exists t, r = Resolved (Some t) /\ t <> "".
Proof.
  destruct r as [[t|]|e]; simpl; try discriminate.
  destruct t; simpl; try discriminate. intros _. eexists; split; [reflexivity|discriminate].
Qed.

(** Unfolding the loop once, whatever the attempt does. *)
Lemma retryLoop_unfold (fuel : nat) (promptText model : string) (a : nat) (s : State) :
  a < MAX_RETRIES cfg ->
  retryLoop cfg apiKeys env (S fuel) promptText model a s =
    match retryTurn cfg apiKeys env promptText model a s with
    | (Return (inl t), s') => (Return (Some t), s')
    | (Return (inr a'), s') => retryLoop cfg apiKeys env fuel promptText model a' s'
    | (Throw e, s') => (Throw e, s')
    | (Stuck, s') => (Stuck, s')
    end.
Proof.
  intros Ha. simpl. apply Nat.ltb_lt in Ha. rewrite Ha. unfold bind.
  destruct (retryTurn cfg apiKeys env promptText model a s) as [[[t|a']|e|] s']; reflexivity.
Qed.

(** The loop needs no more fuel than there are attempts left. *)
Lemma retryLoop_total (promptText model : string) (fuel a : nat) (s : State) :
  MAX_RETRIES cfg - a < fuel ->
  fst (retryLoop cfg apiKeys env fuel promptText model a s) <> Stuck.
Proof.
  revert a s. induction fuel as [|fuel IH]; intros a s Hf; [lia|].
  destruct (decide (a < MAX_RETRIES cfg)) as [Ha|Ha].
  - rewrite retryLoop_unfold by done. rewrite retryTurn_spec.
    destruct (failureOf _) as [e|] eqn:Hr.
    + destruct (MAX_RETRIES cfg <=? a + 1) eqn:Hlast; [done|].
      apply IH. lia.
    + apply failureOf_None in Hr as (t & -> & _). done.
  - simpl. apply Nat.ltb_nlt in Ha. rewrite Ha. done.
Qed.

Lemma generateWithRetry_total (promptText model : string) (s : State) :
  fst (generateWithRetry cfg apiKeys env promptText model s) <> Stuck.
Proof. apply retryLoop_total. lia. Qed.

(** What the loop returns is a text that is not empty, or [undefined] when
    it was entered with no attempt left. *)
Lemma retryLoop_returns (promptText model : string) (fuel a : nat) (s s' : State)
    (r : option string) :
  retryLoop cfg apiKeys env fuel promptText model a s = (Return r, s') ->
  match r with
  | Some t => t <> ""
  | None => MAX_RETRIES cfg <= a
  end.
Proof.
  revert a s. induction fuel as [|fuel IH]; intros a s; [discriminate|].
  destruct (decide (a < MAX_RETRIES cfg)) as [Ha|Ha].
  - rewrite retryLoop_unfold by done. rewrite retryTurn_spec.
    destruct (failureOf _) as [e|] eqn:Hr.
    + destruct (MAX_RETRIES cfg <=? a + 1) eqn:Hlast; [discriminate|].
      intros Hrun. apply IH in Hrun. apply Nat.leb_gt in Hlast.
      destruct r; [done | lia].
    + apply failureOf_None in Hr as (t & -> & Ht). intros [= <- _]. done.
  - simpl. pose proof Ha as Ha'. apply Nat.ltb_nlt in Ha'. rewrite Ha'.
    intros [= <- _]. lia.
Qed.

(** With [n] attempts left and a call that always fails, the loop makes
    exactly [n] calls and throws the error of the last one. *)
Lemma retryLoop_exhausts (promptText model : string) :
  alwaysFails env ->
  forall n a fuel s,
    a + S n = MAX_RETRIES cfg -> n < fuel ->
    exists e s' h key later,
      retryLoop cfg apiKeys env fuel promptText model a s = (Throw e, s')
      /\ attempts (trace s') = attempts (trace s) + S n
      /\ trace s' = later ++ EvGenerate key model promptText :: h
      /\ attempts later = 0
      /\ failureOf (generateContent env h key model promptText) = Some e.
Proof.
  intros Hfail. induction n as [|n IH]; intros a fuel s Ha Hf.
  - destruct fuel as [|fuel]; [lia|].
    rewrite retryLoop_unfold by lia. rewrite retryTurn_spec.
    destruct (Hfail (EvSleep (REQUEST_DELAY cfg) :: trace s) (apiKeys !! keyIndex s)
                model promptText) as [e He].
    rewrite He. assert ((MAX_RETRIES cfg <=? a + 1) = true) as -> by (apply Nat.leb_le; lia).
    exists e. eexists. eexists. eexists. exists (backoff cfg (a + 1) e).
    split; [reflexivity|]. cbn [trace].
    rewrite attempts_app, attempts_backoff. repeat split; try done.
    unfold attempts; simpl. lia.
  - destruct fuel as [|fuel]; [lia|].
    rewrite retryLoop_unfold by lia. rewrite retryTurn_spec.
    destruct (Hfail (EvSleep (REQUEST_DELAY cfg) :: trace s) (apiKeys !! keyIndex s)
                model promptText) as [e He].
    rewrite He. assert ((MAX_RETRIES cfg <=? a + 1) = false) as -> by (apply Nat.leb_gt; lia).
    edestruct (IH (a + 1) fuel) as (e' & s' & h & key & later & Hrun & Hn & Htr & Hl & Hlast);
      [lia | lia |].
    rewrite Hrun. exists e', s', h, key, later. repeat split; try done.
    rewrite Hn. cbn [trace]. rewrite attempts_app, attempts_backoff.
    unfold attempts; simpl. lia.
Qed.

Lemma attempts_call (key : option string) (model contents : string) (ms : nat)
    (tr : list Event) :
  attempts (EvGenerate key model contents :: EvSleep ms :: tr) = attempts tr + 1.
Proof. unfold attempts. simpl. lia. Qed.

(** Every turn of the loop that is entered makes one generation call. *)
Lemma retryLoop_attempts (promptText model : string) (fuel a : nat) (s : State) :
  let s' := snd (retryLoop cfg apiKeys env fuel promptText model a s) in
  attempts (trace s) <= attempts (trace s')
  /\ (a < MAX_RETRIES cfg -> 0 < fuel -> attempts (trace s) + 1 <= attempts (trace s')).
Proof.
  revert a s. induction fuel as [|fuel IH]; intros a s; cbn zeta.
  - split; [done | lia].
  - destruct (decide (a < MAX_RETRIES cfg)) as [Ha|Ha].
    + rewrite retryLoop_unfold by done. rewrite retryTurn_spec.
      destruct (failureOf _) as [e|] eqn:Hr.
      * destruct (MAX_RETRIES cfg <=? a + 1) eqn:Hlast.
        -- cbn [snd trace]. rewrite attempts_app, attempts_backoff, attempts_call.
           split; lia.
        -- match goal with
           | |- context [retryLoop _ _ _ fuel _ _ ?a' ?s1] =>
             destruct (IH a' s1) as [Hle _]; cbn [trace] in Hle;
             rewrite attempts_app, attempts_backoff, attempts_call in Hle
           end.
           split; lia.
      * apply failureOf_None in Hr as (t & -> & _). cbn [snd trace].
        rewrite attempts_call. split; lia.
    + simpl. pose proof Ha as Ha'. apply Nat.ltb_nlt in Ha'. rewrite Ha'.
      split; [done | lia].
Qed.

(** C3.  If the generation call fails on every attempt, [generateWithRetry]
    makes exactly [MAX_RETRIES] calls, no fewer and no more, and then
    fails: it throws the error of the last attempt, after which no further
    call is made. *)
Theorem generateWithRetry_exhausts (promptText model : string) (s : State) :
  0 < MAX_RETRIES cfg ->
  alwaysFails env ->
  exists e s' h key later,
    generateWithRetry cfg apiKeys env promptText model s = (Throw e, s')
    /\ attempts (trace s') = attempts (trace s) + MAX_RETRIES cfg
    /\ trace s' = later ++ EvGenerate key model promptText :: h
    /\ attempts later = 0
    /\ failureOf (generateContent env h key model promptText) = Some e.
Proof.
  intros Hmax Hfail. unfold generateWithRetry.
  destruct (MAX_RETRIES cfg) as [|n] eqn:Hn; [lia|].
  pose proof (retryLoop_exhausts promptText model Hfail n 0 (S (S n)) s) as H.
  rewrite Hn in H. apply H; lia.
Qed.

(** C4.  An attempt whose call returns an empty response is a failed
    attempt: it is logged and backed off like any other, it uses up one of
    the [MAX_RETRIES] attempts, and the loop goes on with the next attempt
    (so at least one more call is made), or throws [Empty response] if
    this was the last.  And whatever [generateWithRetry] returns is never
    an empty text. *)
Theorem generateWithRetry_empty_response_is_failure
    (promptText model : string) (fuel a : nat) (s : State) (t : option string) :
  let key := apiKeys !! keyIndex s in
  let h := EvSleep (REQUEST_DELAY cfg) :: trace s in
  let s1 := {| keyIndex := (keyIndex s + 1) mod List.length apiKeys;
               trace := backoff cfg (a + 1) (Error "Empty response")
                        ++ EvGenerate key model promptText :: h |} in
  a < MAX_RETRIES cfg ->
  generateContent env h key model promptText = Resolved t ->
  truthy t = false ->
  retryLoop cfg apiKeys env (S fuel) promptText model a s =
    (if MAX_RETRIES cfg <=? a + 1 then (Throw (Error "Empty response"), s1)
     else retryLoop cfg apiKeys env fuel promptText model (a + 1) s1)
  /\ attempts (trace s1) = attempts (trace s) + 1
  /\ (a + 1 < MAX_RETRIES cfg -> 0 < fuel ->
      attempts (trace s) + 2
        <= attempts (trace (snd (retryLoop cfg apiKeys env (S fuel) promptText model a s))))
  /\ (forall s0 s' r,
        generateWithRetry cfg apiKeys env promptText model s0 = (Return r, s') ->
        r <> Some "").
Proof.
  intros key h s1 Ha Hresp Hempty.
  assert (retryLoop cfg apiKeys env (S fuel) promptText model a s =
          (if MAX_RETRIES cfg <=? a + 1 then (Throw (Error "Empty response"), s1)
           else retryLoop cfg apiKeys env fuel promptText model (a + 1) s1)) as Hloop.
  { rewrite retryLoop_unfold by done. rewrite retryTurn_spec.
    fold key h. rewrite Hresp. simpl. rewrite Hempty.
    destruct (MAX_RETRIES cfg <=? a + 1); reflexivity. }
  assert (attempts (trace s1) = attempts (trace s) + 1) as Hone.
  { subst s1. cbn [trace]. rewrite attempts_app, attempts_backoff.
    unfold attempts; simpl. lia. }
  split; [exact Hloop|]. split; [exact Hone|]. split.
  { intros Hmore Hfuel. rewrite Hloop.
    assert ((MAX_RETRIES cfg <=? a + 1) = false) as -> by (apply Nat.leb_gt; lia).
    destruct (retryLoop_attempts promptText model fuel (a + 1) s1) as [_ Hnext].
    specialize (Hnext Hmore Hfuel). lia. }
  intros s0 s' r Hrun. apply retryLoop_returns in Hrun.
  destruct r as [r|]; [|done]. intros [= ->]. done.
Qed.

(** [k] successive calls of [getNextGemini] from index [i] hand out the
    keys at [i], [i+1], ... modulo the size of the pool. *)
Lemma successive_spec (k i : nat) (tr : list Event) :
  i < List.length apiKeys ->
  successive apiKeys k {| keyIndex := i; trace := tr |} =
    (Return (List.map (fun j => mkGenAI (apiKeys !! ((i + j) mod List.length apiKeys)))
               (seq 0 k)),
     {| keyIndex := (i + k) mod List.length apiKeys; trace := tr |}).
Proof.
  revert i. induction k as [|k IH]; intros i Hi.
  - simpl. unfold ret. by rewrite Nat.add_0_r, Nat.mod_small.
  - cbn [successive]. unfold bind at 1. unfold getNextGemini at 1. cbn [keyIndex trace].
    unfold bind at 1. rewrite IH by (apply Nat.mod_upper_bound; lia).
    unfold ret. f_equal.
    + f_equal. cbn [seq List.map]. f_equal.
      * by rewrite Nat.add_0_r, Nat.mod_small.
      * rewrite <- seq_shift, List.map_map. apply List.map_ext. intros j.
        do 2 f_equal. rewrite Nat.Div0.add_mod_idemp_l. f_equal. lia.
    + f_equal. rewrite Nat.Div0.add_mod_idemp_l. f_equal. lia.
Qed.

End BatchFacts.

(** ** The worker queue *)
Section QueueFacts.
Import Js Batch.

Variable cfg : Config.
Variable apiKeys : list string.
Variable env : Env.
Variable generateSafeFilename : string -> string.
Variable files : list File.
Variable model : string.

Lemma neverStuck_bind {A B} (m : M A) (k : A -> M B) :
  neverStuck m -> (forall a, neverStuck (k a)) -> neverStuck (bind m k).
Proof.
  intros Hm Hk s. unfold bind. specialize (Hm s).
  destruct (m s) as [[a|e|] s']; simpl in *; [apply Hk | done | done].
Qed.

Lemma neverStuck_ret {A} (a : A) : neverStuck (ret a).
Proof. by intros s. Qed.

Lemma neverStuck_throw {A} (e : JsError) : neverStuck (@throw A e).
Proof. by intros s. Qed.

Lemma neverStuck_emit (e : Event) : neverStuck (emit e).
Proof. by intros s. Qed.

Lemma neverStuck_history : neverStuck history.
Proof. by intros s. Qed.

Lemma neverStuck_await {A} (p : Settled A) : neverStuck (await p).
Proof. destruct p; by intros s. Qed.

Create HintDb stuck.
Local Hint Resolve neverStuck_ret neverStuck_throw neverStuck_emit
  neverStuck_history neverStuck_await : stuck.

(** [processFile] of the batch tool always returns a result: its [catch]
    takes every error. *)
Lemma processFile_returns (file : File) (s : State) :
  exists r s',
    processFile cfg apiKeys env generateSafeFilename file model s = (Return r, s').
Proof.
  unfold processFile. unfold bind at 1. cbn [emit].
  set (s0 := {| keyIndex := keyIndex s; trace := _ |}).
  unfold try_catch.
  match goal with |- context [match ?body s0 with _ => _ end] => set (b := body) end.
  assert (neverStuck b) as Hb.
  { subst b. apply neverStuck_bind; [auto with stuck|]. intros h.
    apply neverStuck_bind; [auto with stuck|]. intros _.
    apply neverStuck_bind; [auto with stuck|]. intros resp.
    apply neverStuck_bind; [intros s1; apply generateWithRetry_total|]. intros content.
    apply neverStuck_bind.
    { unfold writeGenerated. destruct content; [|auto with stuck].
      apply neverStuck_bind; [auto with stuck|]. intros h'.
      apply neverStuck_bind; [auto with stuck|]. intros _.
      destruct (writeFileSync _ _ _ _); auto with stuck. }
    intros _. apply neverStuck_bind.
    { unfold markCompleted.
      apply neverStuck_bind; [auto with stuck|]. intros h'.
      apply neverStuck_bind; [auto with stuck|]. intros _.
      destruct (axios_put _ _ _); auto with stuck. }
    intros _. apply neverStuck_bind; auto with stuck. }
  specialize (Hb s0). destruct (b s0) as [[r|e|] s1]; simpl in Hb.
  - by eexists _, _.
  - unfold bind, emit, ret. by eexists _, _.
  - done.
Qed.

Lemma running_app (ws1 ws2 : list Worker) :
  running (ws1 ++ ws2) = running ws1 ++ running ws2.
Proof. apply omap_app. Qed.

(** Replacing the state of one worker moves one item in or out of the
    items waited for. *)
Lemma running_insert (ws : list Worker) (w : nat) (old new : Worker) :
  ws !! w = Some old ->
  running (<[w := new]> ws) ++ option_list (awaited old)
    ≡ₚ running ws ++ option_list (awaited new).
Proof.
  intros Hw. pose proof (lookup_lt_Some _ _ _ Hw) as Hlt.
  rewrite insert_take_drop by done.
  rewrite <- (take_drop_middle ws w old Hw) at 3.
  rewrite !running_app. unfold running.
  destruct old as [i| |], new as [j| |]; simpl;
    rewrite ?app_nil_r; try done;
    rewrite <- !app_assoc; apply Permutation_app_head; simpl.
  - rewrite <- !Permutation_cons_append. apply perm_swap.
  - by rewrite <- Permutation_cons_append.
  - by rewrite <- Permutation_cons_append.
  - by rewrite <- Permutation_cons_append.
  - by rewrite <- Permutation_cons_append.
Qed.

Lemma running_lookup (ws : list Worker) (w i : nat) :
  ws !! w = Some (Running i) -> i ∈ running ws.
Proof.
  intros Hw. unfold running. apply list_elem_of_omap.
  exists (Running i). split; [by eapply list_elem_of_lookup_2 | done].
Qed.

Ltac queue_simpl :=
  cbn [index results workers proc claimed origin setWorkers fst snd].

Lemma running_snoc (ws : list Worker) (w : Worker) :
  running (ws ++ [w]) = running ws ++ option_list (awaited w).
Proof. rewrite running_app. by destruct w. Qed.

(** A worker that is started keeps the queue consistent. *)
Lemma spawn_consistent (q : Queue) :
  consistent files q -> consistent files (spawn files q).
Proof.
  intros (Hcl & Hle & Hlen & Hperm & Hcrash & Hfin).
  unfold spawn, loopHead, consistent.
  destruct (List.length files <=? index q) eqn:Hend; queue_simpl;
    rewrite running_snoc; cbn [awaited option_list].
  - apply Nat.leb_le in Hend. repeat split; try done.
    + by rewrite app_nil_r.
    + intros w Hw. apply lookup_app_Some in Hw as [Hw|[_ Hw]]; [by eapply Hcrash|].
      by destruct (w - List.length (workers q)).
    + intros _ _. lia.
  - apply Nat.leb_gt in Hend. repeat split; try done.
    + by rewrite Nat.add_1_r, seq_S, Hcl.
    + lia.
    + by rewrite app_assoc, Hperm.
    + intros w Hw. apply lookup_app_Some in Hw as [Hw|[_ Hw]]; [by eapply Hcrash|].
      by destruct (w - List.length (workers q)) as [|[|]].
    + intros w Hw. apply lookup_app_Some in Hw as [Hw|[_ Hw]].
      * apply Hfin in Hw. lia.
      * by destruct (w - List.length (workers q)) as [|[|]].
Qed.

Lemma startWorkers_consistent (s : State) :
  consistent files (startWorkers cfg files s).
Proof.
  unfold startWorkers. induction (CONCURRENCY_LIMIT cfg) as [|c IH].
  - repeat split; try done. cbn. lia.
  - rewrite Nat.iter_succ. by apply spawn_consistent.
Qed.

Lemma spawn_workers_length (q : Queue) :
  List.length (workers (spawn files q)) = S (List.length (workers q)).
Proof.
  unfold spawn, loopHead. destruct (_ <=? _); queue_simpl; rewrite length_app; cbn; lia.
Qed.

Lemma spawn_results (q : Queue) : results (spawn files q) = results q.
Proof. unfold spawn, loopHead. by destruct (_ <=? _). Qed.

Lemma startWorkers_workers_length (s : State) :
  List.length (workers (startWorkers cfg files s)) = CONCURRENCY_LIMIT cfg.
Proof.
  unfold startWorkers. induction (CONCURRENCY_LIMIT cfg) as [|c IH]; [done|].
  by rewrite Nat.iter_succ, spawn_workers_length, IH.
Qed.

Lemma startWorkers_results (s : State) : results (startWorkers cfg files s) = [].
Proof.
  unfold startWorkers. induction (CONCURRENCY_LIMIT cfg) as [|c IH]; [done|].
  by rewrite Nat.iter_succ, spawn_results.
Qed.

(** Resuming a worker that waits for item [i]: the item exists, its
    pipeline returns a result, the result is pushed, and the worker takes
    the next item or leaves. *)
Lemma resume_running (q : Queue) (w i : nat) :
  consistent files q ->
  workers q !! w = Some (Running i) ->
  exists file result s',
    files !! i = Some file
    /\ processFile cfg apiKeys env generateSafeFilename file model (proc q)
        = (Return result, s')
    /\ resume cfg apiKeys env generateSafeFilename files model q w =
       let '(next, q1) := loopHead files
         {| index := index q; results := results q ++ [result];
            workers := workers q; proc := s';
            claimed := claimed q; origin := origin q ++ [i] |} in
       setWorkers (<[w := next]> (workers q1)) q1.
Proof.
  intros (Hcl & Hle & Hlen & Hperm & Hcrash & Hfin) Hw.
  assert (i < List.length files) as Hi.
  { apply running_lookup in Hw.
    assert (i ∈ claimed q) as Hin by (rewrite <- Hperm; set_solver).
    rewrite Hcl in Hin. apply elem_of_seq in Hin. lia. }
  destruct (lookup_lt_is_Some_2 files i Hi) as [file Hfile].
  destruct (processFile_returns file (proc q)) as (result & s' & Hrun).
  exists file, result, s'. repeat split; try done.
  unfold resume. by rewrite Hw, Hfile, Hrun.
Qed.

Lemma resume_consistent (q : Queue) (w : nat) :
  consistent files q ->
  consistent files (resume cfg apiKeys env generateSafeFilename files model q w).
Proof.
  intros Hq.
  destruct (workers q !! w) as [[i| |]|] eqn:Hw;
    try (unfold resume; by rewrite Hw).
  destruct (resume_running q w i Hq Hw) as (file & result & s' & _ & _ & ->).
  destruct Hq as (Hcl & Hle & Hlen & Hperm & Hcrash & Hfin).
  pose proof (running_insert (workers q) w (Running i)) as Hins.
  unfold loopHead, consistent. cbn [index].
  destruct (List.length files <=? index q) eqn:Hend; queue_simpl.
  - apply Nat.leb_le in Hend. specialize (Hins Finished Hw).
    cbn [awaited option_list] in Hins.
    rewrite app_nil_r in Hins.
    repeat split; try done.
    + rewrite !length_app. cbn. lia.
    + by rewrite <- app_assoc, (Permutation_app_comm [i]), Hins.
    + intros w' Hw'. apply list_lookup_insert_Some in Hw' as [(_ & ? & _)|[_ Hw']];
        [done | by eapply Hcrash].
    + intros _ _. lia.
  - apply Nat.leb_gt in Hend. specialize (Hins (Running (index q)) Hw).
    cbn [awaited option_list] in Hins.
    repeat split; try done.
    + by rewrite Nat.add_1_r, seq_S, Hcl.
    + lia.
    + rewrite !length_app. cbn. lia.
    + rewrite <- app_assoc, (Permutation_app_comm [i]), Hins.
      by rewrite app_assoc, Hperm.
    + intros w' Hw'. apply list_lookup_insert_Some in Hw' as [(_ & ? & _)|[_ Hw']];
        [done | by eapply Hcrash].
    + intros w' Hw'. apply list_lookup_insert_Some in Hw' as [(_ & ? & _)|[_ Hw']];
        [done|]. apply Hfin in Hw'. lia.
Qed.

Lemma resume_results_length (q : Queue) (w i : nat) :
  consistent files q ->
  workers q !! w = Some (Running i) ->
  List.length (results (resume cfg apiKeys env generateSafeFilename files model q w))
    = S (List.length (results q)).
Proof.
  intros Hq Hw.
  destruct (resume_running q w i Hq Hw) as (file & result & s' & _ & _ & ->).
  unfold loopHead. destruct (_ <=? _); queue_simpl; rewrite length_app; cbn; lia.
Qed.

Lemma resume_workers_length (q : Queue) (w : nat) :
  consistent files q ->
  List.length (workers (resume cfg apiKeys env generateSafeFilename files model q w))
    = List.length (workers q).
Proof.
  intros Hq.
  destruct (workers q !! w) as [[i| |]|] eqn:Hw;
    try (unfold resume; by rewrite Hw).
  destruct (resume_running q w i Hq Hw) as (file & result & s' & _ & _ & ->).
  unfold loopHead. destruct (_ <=? _); queue_simpl; by rewrite length_insert.
Qed.

Lemma spawn_attributed (q : Queue) :
  attributed cfg apiKeys env generateSafeFilename files model q ->
  attributed cfg apiKeys env generateSafeFilename files model (spawn files q).
Proof. unfold attributed, spawn, loopHead. by destruct (_ <=? _). Qed.

Lemma resume_attributed (q : Queue) (w : nat) :
  consistent files q ->
  attributed cfg apiKeys env generateSafeFilename files model q ->
  attributed cfg apiKeys env generateSafeFilename files model
    (resume cfg apiKeys env generateSafeFilename files model q w).
Proof.
  intros Hq Hat.
  destruct (workers q !! w) as [[i| |]|] eqn:Hw;
    try (unfold resume; by rewrite Hw).
  destruct (resume_running q w i Hq Hw) as (file & result & s' & Hfile & Hrun & ->).
  unfold attributed, loopHead.
  destruct (_ <=? _); queue_simpl;
    (apply Forall2_app; [done|]; constructor; [|constructor];
     by exists file, (proc q), s').
Qed.

(** The invariants hold all along every run, whatever the schedule. *)
Lemma runSchedule_invariant (schedule : list nat) (s : State) :
  let q := runSchedule cfg apiKeys env generateSafeFilename files model schedule s in
  consistent files q
  /\ attributed cfg apiKeys env generateSafeFilename files model q
  /\ List.length (workers q) = CONCURRENCY_LIMIT cfg.
Proof.
  unfold runSchedule.
  assert (consistent files (startWorkers cfg files s)
          /\ attributed cfg apiKeys env generateSafeFilename files model
               (startWorkers cfg files s)
          /\ List.length (workers (startWorkers cfg files s)) = CONCURRENCY_LIMIT cfg)
    as Hstart.
  { split; [apply startWorkers_consistent|]. split; [|apply startWorkers_workers_length].
    unfold startWorkers. induction (CONCURRENCY_LIMIT cfg) as [|c IH].
    - constructor.
    - rewrite Nat.iter_succ. by apply spawn_attributed. }
  revert Hstart. generalize (startWorkers cfg files s).
  induction schedule as [|w schedule IH]; intros q (Hq & Hat & Hlen); [done|].
  cbn [foldl]. apply IH. split; [by apply resume_consistent|].
  split; [by apply resume_attributed|]. by rewrite resume_workers_length.
Qed.

Lemma firstRunning_Some (ws : list Worker) (k w : nat) :
  firstRunning ws k = Some w -> exists i, ws !! (w - k) = Some (Running i) /\ k <= w.
Proof.
  revert k. induction ws as [|x ws IH]; intros k; [done|].
  destruct x as [i| |]; cbn [firstRunning].
  - intros [= <-]. exists i. by rewrite Nat.sub_diag.
  - intros H. apply IH in H as (i & Hi & Hle). exists i.
    replace (w - k) with (S (w - S k)) by lia. split; [done | lia].
  - intros H. apply IH in H as (i & Hi & Hle). exists i.
    replace (w - k) with (S (w - S k)) by lia. split; [done | lia].
Qed.

Lemma firstRunning_None (ws : list Worker) (k : nat) :
  firstRunning ws k = None <-> running ws = [].
Proof.
  revert k. induction ws as [|x ws IH]; intros k; [done|].
  destruct x as [i| |]; cbn [firstRunning]; [done| apply IH | apply IH].
Qed.

Lemma allFinished_spec (q : Queue) :
  allFinished q = true <->
  forall w x, workers q !! w = Some x -> x = Finished.
Proof.
  unfold allFinished. induction (workers q) as [|x ws IH]; cbn [forallb].
  - split; [|done]. by intros _ w x.
  - split.
    + intros H. apply andb_true_iff in H as [Hx Hws].
      intros [|w] y; cbn.
      * intros [= <-]. by destruct x.
      * by apply IH.
    + intros H. apply andb_true_iff. split.
      * by rewrite (H 0 x eq_refl).
      * apply IH. intros w y Hw. by apply (H (S w)).
Qed.

(** Once nobody waits and nobody crashed, every worker has left. *)
Lemma idle_allFinished (q : Queue) :
  consistent files q ->
  firstRunning (workers q) 0 = None ->
  allFinished q = true.
Proof.
  intros (_ & _ & _ & _ & Hcrash & _) Hnone.
  apply firstRunning_None in Hnone. apply allFinished_spec. intros w x Hw.
  destruct x as [i| |]; [|done|by apply Hcrash in Hw].
  apply running_lookup in Hw. rewrite Hnone in Hw. by apply elem_of_nil in Hw.
Qed.

(** When every worker has left, every item has been handed out and has
    its result. *)
Lemma allFinished_complete (q : Queue) :
  consistent files q ->
  0 < List.length (workers q) ->
  allFinished q = true ->
  index q = List.length files
  /\ origin q ≡ₚ seq 0 (List.length files)
  /\ List.length (results q) = List.length files.
Proof.
  intros (Hcl & Hle & Hlen & Hperm & Hcrash & Hfin) Hws Hall.
  pose proof (proj1 (allFinished_spec q) Hall) as Hall'.
  destruct (lookup_lt_is_Some_2 (workers q) 0 Hws) as [x Hx].
  pose proof (Hall' 0 x Hx) as ->. apply Hfin in Hx.
  assert (running (workers q) = []) as Hrun.
  { apply (firstRunning_None _ 0).
    destruct (firstRunning (workers q) 0) as [w|] eqn:Hw; [|done].
    apply firstRunning_Some in Hw as (i & Hi & _). by apply Hall' in Hi. }
  rewrite Hrun, app_nil_r, Hcl, Hx in Hperm. repeat split; try done.
  rewrite Hlen. apply Permutation_length in Hperm. by rewrite Hperm, length_seq.
Qed.

(** The event loop runs dry within one resumption per item. *)
Lemma drain_finishes (fuel : nat) (q : Queue) :
  consistent files q ->
  List.length files <= List.length (results q) + fuel ->
  let q' := drain cfg apiKeys env generateSafeFilename files model fuel q in
  consistent files q'
  /\ firstRunning (workers q') 0 = None
  /\ List.length (workers q') = List.length (workers q).
Proof.
  revert q. induction fuel as [|fuel IH]; intros q Hq Hfuel; cbn [drain].
  - split; [done|]. split; [|done]. apply firstRunning_None.
    destruct Hq as (Hcl & Hle & Hlen & Hperm & _).
    apply Permutation_length in Hperm.
    rewrite length_app, Hcl, length_seq in Hperm.
    apply nil_length_inv. lia.
  - destruct (firstRunning (workers q) 0) as [w|] eqn:Hw; [|done].
    apply firstRunning_Some in Hw as (i & Hi & _). rewrite Nat.sub_0_r in Hi.
    destruct (IH (resume cfg apiKeys env generateSafeFilename files model q w))
      as (H1 & H2 & H3).
    + by apply resume_consistent.
    + rewrite (resume_results_length q w i) by done. lia.
    + split; [done|]. split; [done|]. by rewrite H3, resume_workers_length.
Qed.


End QueueFacts.

(** * Properties of the server *)
Section ServerFacts.
Import Js Server.

(** [updateJob] on a stored job: the merged job replaces it and is
    entered in the journal; nothing else of the store changes. *)
Lemma updateJob_hit (now : nat) (jobId : string) (u : Updates) (w : World) (job : Job) :
  jobs w !! jobId = Some job ->
  jobs (updateJob now jobId u w) = <[jobId := merged now u job]> (jobs w)
  /\ calls (updateJob now jobId u w) = calls w
  /\ journal (updateJob now jobId u w) = (jobId, merged now u job) :: journal w.
Proof. intros Hj. unfold updateJob, merged. rewrite Hj. by destruct (decide _). Qed.

(** [updateJob] for an identifier that is not in the store does nothing. *)
Lemma updateJob_miss (now : nat) (jobId : string) (u : Updates) (w : World) :
  jobs w !! jobId = None -> updateJob now jobId u w = w.
Proof. intros Hj. unfold updateJob. by rewrite Hj. Qed.

Lemma view_updateJob (now : nat) (jobId : string) (u : Updates) (w : World)
    (job : Job) (cs : list Call) (jn : list (string * Job)) :
  view jobId w = (Some job, cs, jn) ->
  view jobId (updateJob now jobId u w)
    = (Some (merged now u job), cs, (jobId, merged now u job) :: jn).
Proof.
  unfold view. intros [= Hj <- <-].
  destruct (updateJob_hit now jobId u w job Hj) as (-> & -> & ->).
  by rewrite lookup_insert_eq.
Qed.

Lemma view_record (jobId : string) (c : Call) (w : World)
    (oj : option Job) (cs : list Call) (jn : list (string * Job)) :
  view jobId w = (oj, cs, jn) -> view jobId (record c w) = (oj, c :: cs, jn).
Proof. unfold view. by intros [= <- <- <-]. Qed.

Lemma view_created (jobId : string) (job : Job) (w : World) :
  view jobId {| jobs := <[jobId := job]> (jobs w); clients := clients w;
                calls := calls w; journal := (jobId, job) :: journal w |}
    = (Some job, calls w, (jobId, job) :: journal w).
Proof. unfold view. cbn. by rewrite lookup_insert_eq. Qed.

Ltac solve_view :=
  lazymatch goal with
  | |- view _ (record _ _) = _ => eapply view_record; solve_view
  | |- view _ (updateJob _ _ _ _) = _ => eapply view_updateJob; solve_view
  | |- view _ (mkWorld _ _ _ _) = _ => apply view_created
  | |- _ => eassumption
  end.

Lemma view_jobs (jobId : string) (w : World) oj cs jn :
  view jobId w = (oj, cs, jn) -> jobs w !! jobId = oj.
Proof. by intros [= <- _ _]. Qed.

Lemma view_calls (jobId : string) (w : World) oj cs jn :
  view jobId w = (oj, cs, jn) -> calls w = cs.
Proof. by intros [= _ <- _]. Qed.

Lemma view_journal (jobId : string) (w : World) oj cs jn :
  view jobId w = (oj, cs, jn) -> journal w = jn.
Proof. by intros [= _ _ <-]. Qed.

(** Unfold the segments of [processFile], leaving [updateJob] and [record]
    in place. *)
Ltac pipeline_norm :=
  cbv beta iota zeta delta
    [processFile start finish resume fetched generated uploaded reconciled fail
     suspend awaiting inv_jobId inv_config inv_fileId inv_fileUrl fst snd
     truthy default from_option Datatypes.id negb].


(** The part of the lifetime written since [w0], from the journal. *)
Lemma since_journal (w0 w : World) (jobId : string) (new : list (string * Job)) :
  journal w = new ++ journal w0 ->
  since w0 w jobId =
    rev (omap (fun e => if String.eqb (fst e) jobId then Some (snd e) else None) new).
Proof.
  intros Hj. unfold since, lifetime. rewrite Hj, omap_app, rev_app_distr.
  by rewrite drop_app_length.
Qed.

(** One goal for each way a run can go. *)
Ltac pipeline_cases sc :=
  destruct (fetchResponse sc) as [data|e0];
  [destruct (getGemini _ _ _) as [ai|e1];
   [destruct (generateResponse sc) as [[[|c t]|]|e2];
    [ | destruct (uploadResponse sc) as [url|e3];
        [destruct (putResponse sc) as [[]|e4] |] | | ] | ] | ];
  pipeline_norm.

(** C10.  Every invocation of [processFile] ends, and when it does the job
    it created is terminal: [completed] with the result attached when it
    returns, [failed] with the error message when it rethrows; either way
    the end time is stamped. *)
Theorem processFile_leaves_job_terminal (GEMINI_API_KEY : option string)
    (sc : Script) (fileId fileUrl : string) (config : Config) (w : World) :
  exists w' out job,
    processFile GEMINI_API_KEY sc fileId fileUrl config w = (w', Some out)
    /\ jobs w' !! uuid sc = Some job
    /\ terminal (status job) = true
    /\ is_Some (endTime job)
    /\ match out with
       | Success jobId fid url _ =>
         jobId = uuid sc /\ fid = fileId
         /\ status job = completed /\ progress job = 100 /\ result job = Some url
       | Failure e =>
         status job = failed /\ error job = Some (Js.message e)
       end.
Proof.
  pipeline_norm. pipeline_cases sc;
    (eexists _, _, _; split; [reflexivity|];
     split; [eapply view_jobs; solve_view|]; by cbn).
Qed.

Ltac prefix_of l base :=
  lazymatch l with
  | base => constr:(@nil (string * Job))
  | ?x :: ?l' => let p := prefix_of l' base in constr:(x :: p)
  end.

(** Rewrite [since w w' jobId] into the list of the jobs written. *)
Ltac solve_since :=
  lazymatch goal with
  | |- context [since ?w ?w' ?jobId] =>
    let Hv := fresh "Hv" in
    eassert (view jobId w' = _) as Hv by solve_view;
    apply view_journal in Hv;
    lazymatch type of Hv with
    | journal _ = ?l =>
      let p := prefix_of l (journal w) in
      rewrite (since_journal w w' jobId p Hv)
    end;
    clear Hv;
    cbn [omap list_omap fst snd rev app]; rewrite ?String.eqb_refl;
    cbn [omap list_omap fst snd rev app]
  end.

(** C6.  In every run of [processFile] the progress written for its job
    never goes down except on the write that marks the job [failed]; and
    in a run that succeeds the values written are 0, 5, 10, 30, 70, 90,
    100, the last one with status [completed], which is how the job is
    left in the store. *)
Theorem processFile_progress_monotone (GEMINI_API_KEY : option string)
    (sc : Script) (fileId fileUrl : string) (config : Config) (w : World) :
  let w' := fst (processFile GEMINI_API_KEY sc fileId fileUrl config w) in
  let out := snd (processFile GEMINI_API_KEY sc fileId fileUrl config w) in
  let written := since w w' (uuid sc) in
  monotoneUnlessFailed written = true
  /\ (forall jobId fid url content,
        out = Some (Success jobId fid url content) ->
        progress <$> written = [0; 5; 10; 30; 70; 90; 100]
        /\ (status <$> last written) = Some completed
        /\ (progress <$> last written) = Some 100
        /\ last written = jobs w' !! uuid sc).
Proof.
  pipeline_norm. pipeline_cases sc; (split; [solve_since; reflexivity|]);
    intros jobId fid url' content Hout; try discriminate Hout;
    solve_since; (split; [reflexivity|]); (split; [reflexivity|]);
    (split; [reflexivity|]);
    symmetry; eapply view_jobs; solve_view.
Qed.

(** The server half of C7: when the download, the generation and the
    upload succeed and the status call to the external store is rejected,
    the rejection is only warned about; [processFile] returns its success
    object and leaves the job [completed] at 100 with the uploaded URL as
    result. *)
Lemma server_swallows_reconciliation_error (GEMINI_API_KEY : option string)
    (sc : Script) (fileId fileUrl : string) (config : Config) (w : World)
    (data : ResponseData) (ai : GoogleGenAI) (text url : string) (e : JsError) :
  fetchResponse sc = Resolved data ->
  getGemini GEMINI_API_KEY (rnd sc) (geminiApiKeys config) = inl ai ->
  generateResponse sc = Resolved (Some text) ->
  text <> "" ->
  uploadResponse sc = Resolved url ->
  putResponse sc = Rejected e ->
  exists w' job,
    processFile GEMINI_API_KEY sc fileId fileUrl config w
      = (w', Some (Success (uuid sc) fileId url text))
    /\ jobs w' !! uuid sc = Some job
    /\ status job = completed
    /\ progress job = 100
    /\ result job = Some url
    /\ error job = None
    /\ calls w' = LogWarn (uuid sc) :: CallPut fileId (clock sc 3)
                   :: CallUpload text fileId (clock sc 2)
                   :: CallGenerate ai (selectedModel config) (textOf data)
                   :: CallGet fileUrl :: calls w.
Proof.
  intros Hfetch Hai Hgen Htext Hup Hput. pipeline_norm.
  rewrite Hfetch, Hai, Hgen, Hup, Hput.
  destruct text as [|c t]; [done|]. pipeline_norm.
  eexists _, _. split; [reflexivity|].
  split; [eapply view_jobs; solve_view|].
  repeat (split; [reflexivity|]). eapply view_calls. solve_view.
Qed.

(** C8.  When the download of the source is rejected, [processFile]
    rethrows [Failed to fetch prompt file: ...] and leaves the job [failed]
    at progress 0 with that message as its error; the only calls made in
    the run are the download itself and the error log, so the external
    store is never told that the file is completed. *)
Theorem processFile_fetch_failure (GEMINI_API_KEY : option string)
    (sc : Script) (fileId fileUrl : string) (config : Config) (w : World)
    (e : JsError) :
  fetchResponse sc = Rejected e ->
  let msg := "Failed to fetch prompt file: " +:+ Js.message e in
  exists w' job,
    processFile GEMINI_API_KEY sc fileId fileUrl config w
      = (w', Some (Failure (Error msg)))
    /\ jobs w' !! uuid sc = Some job
    /\ status job = failed
    /\ progress job = 0
    /\ error job = Some msg
    /\ calls w' = [LogError (uuid sc) msg; CallGet fileUrl] ++ calls w
    /\ existsb (isPut fileId) [LogError (uuid sc) msg; CallGet fileUrl] = false.
Proof.
  intros Hfetch msg. pipeline_norm. rewrite Hfetch.
  eexists _, _. split; [reflexivity|].
  split; [eapply view_jobs; solve_view|].
  repeat (split; [reflexivity|]). split; [|reflexivity].
  eapply view_calls. solve_view.
Qed.

(** A generation call that resolves without text fails the job of the
    server: there is no retry around it. *)
Lemma server_empty_generation_fails (GEMINI_API_KEY : option string)
    (sc : Script) (fileId fileUrl : string) (config : Config) (w : World)
    (data : ResponseData) (ai : GoogleGenAI) (text : option string) :
  fetchResponse sc = Resolved data ->
  getGemini GEMINI_API_KEY (rnd sc) (geminiApiKeys config) = inl ai ->
  generateResponse sc = Resolved text ->
  truthy text = false ->
  let msg := "Gemini generation failed: Gemini returned empty content" in
  exists w' job,
    processFile GEMINI_API_KEY sc fileId fileUrl config w
      = (w', Some (Failure (Error msg)))
    /\ jobs w' !! uuid sc = Some job
    /\ status job = failed
    /\ error job = Some msg.
Proof.
  intros Hfetch Hai Hgen Hempty msg. pipeline_norm.
  rewrite Hfetch, Hai, Hgen.
  destruct text as [[|c t]|]; try discriminate Hempty; pipeline_norm;
    (eexists _, _; split; [reflexivity|];
     split; [eapply view_jobs; solve_view|]; by split).
Qed.

(** Within a run of [processFile] the statuses written for its job follow
    the graph [pending -> processing -> completed | failed], and nothing is
    written after the terminal status. *)
Lemma processFile_legal_path (GEMINI_API_KEY : option string)
    (sc : Script) (fileId fileUrl : string) (config : Config) (w : World) :
  legalPath
    (status <$> since w (fst (processFile GEMINI_API_KEY sc fileId fileUrl config w))
                  (uuid sc)) = true.
Proof. pipeline_norm. pipeline_cases sc; solve_since; reflexivity. Qed.

(** C2, as amended.  [updateJob] does not look at the state graph: on a
    stored job it merges whatever updates it is given, so the status
    becomes the one in the updates whatever it was before; it stamps the
    end time with the current time whenever the updates carry [completed]
    or [failed]; other jobs are untouched, and an unknown identifier
    changes nothing.  The order [pending -> processing -> completed |
    failed] is kept by the caller: in every run of [processFile] the
    statuses written follow it. *)
Theorem updateJob_merges_without_validation (now : nat) (jobId : string)
    (u : Updates) (w : World) (job : Job) :
  jobs w !! jobId = Some job ->
  jobs (updateJob now jobId u w) = <[jobId := merged now u job]> (jobs w)
  /\ status (merged now u job) = default (status job) (upd_status u)
  /\ (upd_status u = Some completed \/ upd_status u = Some failed ->
      endTime (merged now u job) = Some now)
  /\ (forall other, jobs w !! other = None -> updateJob now other u w = w)
  /\ (forall key sc fileId fileUrl config w0,
        legalPath
          (status <$> since w0 (fst (processFile key sc fileId fileUrl config w0))
                        (uuid sc)) = true).
Proof.
  intros Hj. split; [by apply updateJob_hit|]. split; [|split; [|split]].
  - unfold merged. by destruct (decide _).
  - intros Hterm. unfold merged. by rewrite decide_True.
  - intros other. apply updateJob_miss.
  - intros. apply processFile_legal_path.
Qed.

(** C2 as stated fails: a job that is [completed] is put back to
    [processing] at progress 5 by a later call of [updateJob]. *)
Lemma updateJob_rewrites_terminal_job :
  let u := Server.progressUpdate (Some processing) 5 "Starting processing..." in
  let w' := updateJob 3 "j1" u Examples.doneWorld in
  jobs Examples.doneWorld !! "j1" = Some Examples.doneJob
  /\ terminal (status Examples.doneJob) = true
  /\ (status <$> jobs w' !! "j1") = Some processing
  /\ (progress <$> jobs w' !! "j1") = Some 5
  /\ jobs w' !! "j1" <> Some Examples.doneJob.
Proof.
  intros u w'.
  destruct (updateJob_hit 3 "j1" u Examples.doneWorld Examples.doneJob
              (lookup_singleton_eq _ _)) as (Hjobs & _).
  split; [apply lookup_singleton_eq|]. split; [reflexivity|].
  subst w'. rewrite Hjobs, lookup_insert_eq. by repeat split.
Qed.

(** The store after the first segment of [processFile]: one entry added
    (or replaced) under the new identifier, in state [processing]. *)
Lemma start_jobs (uuid : string) (now : nat) (fileId fileUrl : string)
    (config : Config) (w : World) :
  exists job,
    jobs (fst (start uuid now fileId fileUrl config w)) = <[uuid := job]> (jobs w)
    /\ Server.fileId job = fileId
    /\ status job = processing.
Proof.
  unfold start. cbn [fst]. eexists. split; [|split].
  - unfold record. cbn [jobs].
    match goal with
    | |- jobs (updateJob ?n ?j ?u (updateJob ?n' ?j' ?u' ?w0)) = _ =>
      destruct (updateJob_hit n' j' u' w0 _ (lookup_insert_eq _ _ _)) as (H1 & _);
      destruct (updateJob_hit n j u (updateJob n' j' u' w0) _
                  ltac:(rewrite H1; apply lookup_insert_eq)) as (H2 & _)
    end.
    rewrite H2, H1. cbn [jobs]. by rewrite !insert_insert_eq.
  - reflexivity.
  - reflexivity.
Qed.

(** The guard of [runAutomation] keeps the store free of duplicates: a
    file with a job in flight is skipped, so starting a job for any other
    file cannot create a second job in flight for one file. *)
Lemma submit_preserves_dedup (AUTO_CONFIG : Config) (uuid : string) (now : nat)
    (file : FileRecord) (w : World) :
  dedup w -> dedup (fst (submit AUTO_CONFIG uuid now file w)).
Proof.
  intros Hw. unfold submit.
  destruct (isProcessing w (file_id file)) eqn:Hbusy; [done|].
  destruct (start_jobs uuid now (file_id file) (file_secureUrl file) AUTO_CONFIG w)
    as (job & Hjobs & Hfid & Hst).
  destruct (start uuid now _ _ _ w) as [w' inv]. cbn [fst] in *.
  apply bool_decide_eq_false in Hbusy.
  assert (forall i j, jobs w !! i = Some j -> fileId j = file_id file ->
                      nonTerminal j -> False) as Hfree.
  { intros i j Hi Hf Hn. apply Hbusy. apply map_Exists_lookup. by exists i, j. }
  intros i1 i2 j1 j2 H1 H2 Hsame Hn1 Hn2. rewrite Hjobs in H1, H2.
  apply lookup_insert_Some in H1 as [[<- <-]|[Hne1 H1]];
    apply lookup_insert_Some in H2 as [[<- <-]|[Hne2 H2]].
  - done.
  - exfalso. eapply Hfree; [exact H2 | congruence | done].
  - exfalso. eapply Hfree; [exact H1 | congruence | done].
  - by eapply Hw.
Qed.

(** The guard of [runAutomation] at work: a file that has a job in flight
    is skipped and the world is left as it is. *)
Lemma submit_skips_in_flight (AUTO_CONFIG : Config) (uuid : string) (now : nat)
    (file : FileRecord) (w : World) (i : string) (j : Job) :
  jobs w !! i = Some j -> fileId j = file_id file -> nonTerminal j ->
  submit AUTO_CONFIG uuid now file w = (w, None).
Proof.
  intros Hi Hf Hn. unfold submit.
  assert (isProcessing w (file_id file) = true) as ->; [|done].
  apply bool_decide_eq_true. apply map_Exists_lookup. by exists i, j.
Qed.

(** C1 fails on the manual trigger.  The automation loop starts a job for
    file [X]; while that job is still [processing], a request to
    [POST /api/generate] for [X] starts [processFile] again, which creates
    a second job without looking at the store: two jobs for [X] are now
    [processing] at once.  (The same request made through the automation
    loop is skipped.) *)
Theorem manual_trigger_duplicates_job_in_flight :
  let file := Examples.fileX in
  let w1 := fst (submit Examples.demoConfig "job-1" 10 file Examples.emptyWorld) in
  let w2 := fst (postGenerate "job-2" 20 (Some "X") (Some "https://src/X")
                   (Some Examples.demoConfig) w1) in
  dedup w1
  /\ submit Examples.demoConfig "job-3" 20 file w1 = (w1, None)
  /\ (exists j1 j2,
        jobs w2 !! "job-1" = Some j1 /\ jobs w2 !! "job-2" = Some j2
        /\ fileId j1 = "X" /\ fileId j2 = "X"
        /\ status j1 = processing /\ status j2 = processing)
  /\ ~ dedup w2.
Proof.
  intros file w1 w2.
  assert (exists j1 j2,
        jobs w2 !! "job-1" = Some j1 /\ jobs w2 !! "job-2" = Some j2
        /\ fileId j1 = "X" /\ fileId j2 = "X"
        /\ status j1 = processing /\ status j2 = processing) as Hdup.
  { eexists _, _. split; [vm_compute; reflexivity|].
    split; [vm_compute; reflexivity|]. by repeat split. }
  split; [|split; [|split]].
  - apply submit_preserves_dedup. by intros i1 i2 j1 j2 H.
  - vm_compute. reflexivity.
  - exact Hdup.
  - destruct Hdup as (j1 & j2 & H1 & H2 & Hf1 & Hf2 & Hs1 & Hs2). intros Hd.
    assert ("job-1" = "job-2") as Heq; [|discriminate Heq].
    eapply (Hd _ _ j1 j2 H1 H2); [congruence | by left | by left].
Qed.

End ServerFacts.

(** * The two programs side by side *)
Section Reconciliation.
Import Js.

(** A generation call that answers with a text at once: one attempt, and
    the text is returned. *)
Lemma generateWithRetry_first_try (cfg : Batch.Config) (apiKeys : list string)
    (env : Batch.Env) (promptText model text : string) (s : Batch.State) :
  0 < Batch.MAX_RETRIES cfg ->
  text <> "" ->
  Batch.generateContent env (Batch.EvSleep (Batch.REQUEST_DELAY cfg) :: Batch.trace s)
    (apiKeys !! Batch.keyIndex s) model promptText = Resolved (Some text) ->
  Batch.generateWithRetry cfg apiKeys env promptText model s =
    (Batch.Return (Some text),
     {| Batch.keyIndex := (Batch.keyIndex s + 1) mod List.length apiKeys;
        Batch.trace := Batch.EvGenerate (apiKeys !! Batch.keyIndex s) model promptText
                       :: Batch.EvSleep (Batch.REQUEST_DELAY cfg) :: Batch.trace s |}).
Proof.
  intros Hmax Htext Hgen. unfold Batch.generateWithRetry.
  rewrite retryLoop_unfold by done. rewrite retryTurn_spec, Hgen.
  destruct text; [done|]. reflexivity.
Qed.

(** The batch half of C7: [processFile] of the batch tool has a single
    [catch], so a rejected status call makes it return a failure result,
    with the error of the call, although the generated file has been
    written. *)
Lemma batch_reports_reconciliation_error (cfg : Batch.Config) (apiKeys : list string)
    (env : Batch.Env) (generateSafeFilename : string -> string)
    (file : Batch.File) (model text : string) (data : ResponseData)
    (e : JsError) (s : Batch.State) :
  0 < Batch.MAX_RETRIES cfg ->
  text <> "" ->
  (forall h, Batch.axios_get env h (Batch.secureUrl file) = Resolved data) ->
  (forall h key, Batch.generateContent env h key model (textOf data)
                 = Resolved (Some text)) ->
  (forall h name, Batch.writeFileSync env h name text = None) ->
  (forall h, Batch.axios_put env h (Batch._id file) = Some e) ->
  exists s' earlier,
    Batch.processFile cfg apiKeys env generateSafeFilename file model s =
      (Batch.Return {| Batch.success := false;
                       Batch.name := Batch.originalFilename file;
                       Batch.error := Some (message e) |}, s')
    /\ Batch.trace s' =
       Batch.EvLogFailed (Batch.originalFilename file) (message e)
       :: Batch.EvPut (Batch._id file)
       :: Batch.EvWriteFile (generateSafeFilename (Batch.originalFilename file)) text
       :: earlier.
Proof.
  intros Hmax Htext Hget Hgen Hwrite Hput.
  unfold Batch.processFile, Batch.try_catch.
  unfold Batch.bind at 1. cbn [Batch.emit].
  unfold Batch.bind at 1. cbn [Batch.history].
  unfold Batch.bind at 1. cbn [Batch.emit Batch.trace Batch.keyIndex].
  unfold Batch.bind at 1. rewrite Hget. cbn [Batch.await Batch.ret].
  unfold Batch.bind at 1.
  rewrite (generateWithRetry_first_try cfg apiKeys env _ model text) by auto.
  unfold Batch.writeGenerated, Batch.markCompleted, Batch.bind, Batch.history,
    Batch.emit, Batch.ret, Batch.throw.
  cbn [Batch.trace Batch.keyIndex]. rewrite Hwrite, Hput.
  eexists _, _. split; reflexivity.
Qed.

(** C7, as amended.  In the server a rejected status call is swallowed:
    the job ends [completed] with its result and [processFile] returns
    success.  In the batch tool it is not: [processFile] returns a failure
    result carrying the error of the call, after the generated file has
    been written. *)
Theorem reconciliation_error_server_swallows_batch_reports :
  (forall (GEMINI_API_KEY : option string) (sc : Server.Script)
          (fileId fileUrl : string) (config : Server.Config) (w : Server.World)
          (data : ResponseData) (ai : GoogleGenAI) (text url : string) (e : JsError),
      Server.fetchResponse sc = Resolved data ->
      Server.getGemini GEMINI_API_KEY (Server.rnd sc) (Server.geminiApiKeys config) = inl ai ->
      Server.generateResponse sc = Resolved (Some text) ->
      text <> "" ->
      Server.uploadResponse sc = Resolved url ->
      Server.putResponse sc = Rejected e ->
      exists w' job,
        Server.processFile GEMINI_API_KEY sc fileId fileUrl config w
          = (w', Some (Server.Success (Server.uuid sc) fileId url text))
        /\ Server.jobs w' !! Server.uuid sc = Some job
        /\ Server.status job = Server.completed
        /\ Server.progress job = 100
        /\ Server.result job = Some url
        /\ Server.error job = None)
  /\ (forall (cfg : Batch.Config) (apiKeys : list string) (env : Batch.Env)
             (generateSafeFilename : string -> string) (file : Batch.File)
             (model text : string) (data : ResponseData) (e : JsError)
             (s : Batch.State),
      0 < Batch.MAX_RETRIES cfg ->
      text <> "" ->
      (forall h, Batch.axios_get env h (Batch.secureUrl file) = Resolved data) ->
      (forall h key, Batch.generateContent env h key model (textOf data)
                     = Resolved (Some text)) ->
      (forall h name, Batch.writeFileSync env h name text = None) ->
      (forall h, Batch.axios_put env h (Batch._id file) = Some e) ->
      exists s' earlier,
        Batch.processFile cfg apiKeys env generateSafeFilename file model s =
          (Batch.Return {| Batch.success := false;
                           Batch.name := Batch.originalFilename file;
                           Batch.error := Some (message e) |}, s')
        /\ Batch.trace s' =
           Batch.EvLogFailed (Batch.originalFilename file) (message e)
           :: Batch.EvPut (Batch._id file)
           :: Batch.EvWriteFile (generateSafeFilename (Batch.originalFilename file)) text
           :: earlier).
Proof.
  split.
  - intros key sc fileId fileUrl config w data ai text url e H1 H2 H3 H4 H5 H6.
    destruct (server_swallows_reconciliation_error key sc fileId fileUrl config w
                data ai text url e H1 H2 H3 H4 H5 H6)
      as (w' & job & Hrun & Hjob & Hst & Hp & Hr & He & _).
    by exists w', job.
  - intros cfg apiKeys env slug file model text data e s H1 H2 H3 H4 H5 H6.
    by apply (batch_reports_reconciliation_error cfg apiKeys env slug file model
                text data e s).
Qed.

(** C7 as stated fails in the batch tool: download, generation and write
    succeed, the status call is rejected, and [processFile] reports the
    file as failed. *)
Lemma batch_processFile_reports_rejected_status_call :
  exists s',
    Batch.processFile Batch.CONFIG ["k1"; "k2"] Examples.putFailsEnv Examples.slug
      Examples.teaFile "gemini-3-flash-preview" Batch.initial
    = (Batch.Return {| Batch.success := false; Batch.name := "tea.txt";
                       Batch.error := Some "Request failed with status code 500" |}, s')
    /\ Batch.EvWriteFile "tea.txt.mdx" "Tea is a drink." ∈ Batch.trace s'.
Proof.
  eexists. split; [vm_compute; reflexivity|].
  cbn [Batch.trace]. do 2 apply list_elem_of_further. apply list_elem_of_here.
Qed.

(** C5, as amended.  [getNextGemini] of the batch tool is round robin:
    with a pool of [N >= 1] keys, the i-th of [k] successive calls (counted
    from 0) returns the key at index [i mod N], all of them keys of the
    pool; so the k-th call returns the key at [(k-1) mod N] and the
    (N+1)-th call the first key again.  [getGemini] of the server does not
    rotate: among the keys of the request that are usable it returns the
    one at the random draw. *)
Theorem credential_selection (apiKeys : list string) (k : nat) :
  1 <= List.length apiKeys ->
  1 <= k ->
  let N := List.length apiKeys in
  (exists ais s',
      Batch.successive apiKeys k Batch.initial = (Batch.Return ais, s')
      /\ List.length ais = k
      /\ (forall i, i < k ->
            ais !! i = Some (mkGenAI (apiKeys !! (i mod N)))
            /\ is_Some (apiKeys !! (i mod N)))
      /\ ais !! (k - 1) = Some (mkGenAI (apiKeys !! ((k - 1) mod N))))
  /\ (exists ais s',
        Batch.successive apiKeys (N + 1) Batch.initial = (Batch.Return ais, s')
        /\ ais !! N = ais !! 0
        /\ ais !! N = Some (mkGenAI (apiKeys !! 0)))
  /\ (forall GEMINI_API_KEY rnd providedKeys,
        List.filter Server.validKey providedKeys <> [] ->
        Server.getGemini GEMINI_API_KEY rnd (Some providedKeys)
          = inl (mkGenAI (List.filter Server.validKey providedKeys !! rnd))).
Proof.
  intros HN Hk N.
  assert (forall n i, i < n ->
            List.map (fun j => mkGenAI (apiKeys !! ((0 + j) mod N))) (seq 0 n) !! i
              = Some (mkGenAI (apiKeys !! (i mod N)))) as Hnth.
  { intros n i Hi.
    change (List.map ?f ?l) with (f <$> l).
    by rewrite list_lookup_fmap, lookup_seq_lt. }
  split; [|split].
  - unfold Batch.initial. rewrite successive_spec by lia. fold N.
    eexists _, _. split; [reflexivity|]. split; [by rewrite length_map, length_seq|].
    split.
    + intros i Hi. split; [by apply Hnth|].
      apply lookup_lt_is_Some_2. apply Nat.mod_upper_bound. lia.
    + apply Hnth. lia.
  - unfold Batch.initial. rewrite successive_spec by lia. fold N.
    eexists _, _. split; [reflexivity|].
    rewrite !Hnth by lia. rewrite Nat.Div0.mod_same, Nat.Div0.mod_0_l. done.
  - intros key rnd providedKeys Hvalid. unfold Server.getGemini.
    destruct providedKeys as [|p ps]; [done|]. cbn [List.length Nat.ltb Nat.leb].
    destruct (List.filter Server.validKey (p :: ps)) as [|v vs]; [done|]. reflexivity.
Qed.

(** C5 as stated fails for the server: with two usable keys and the draw
    falling on the second each time, the first call does not return the
    first key, and the third call does not come back to it. *)
Lemma getGemini_is_not_round_robin :
  let keys := ["k1"; "k2"] in
  let call (k : nat) := Server.getGemini None 1 (Some keys) in
  List.filter Server.validKey keys = keys
  /\ call 1 = inl (mkGenAI (Some "k2"))
  /\ call 1 <> inl (mkGenAI (keys !! ((1 - 1) mod List.length keys)))
  /\ call 3 = inl (mkGenAI (Some "k2"))
  /\ call 3 <> inl (mkGenAI (keys !! 0)).
Proof. by repeat split. Qed.

End Reconciliation.

(** * The statements at concrete inputs *)
Section Instances.
Import Js.

(** Five rate-limited calls, then the error of the last one. *)
Lemma generateWithRetry_exhausts_on_failing_provider :
  0 < Batch.MAX_RETRIES Batch.CONFIG
  /\ Batch.alwaysFails Examples.failingEnv
  /\ exists e s' h key later,
      Batch.generateWithRetry Batch.CONFIG ["k1"; "k2"] Examples.failingEnv
        "Write about tea." "gemini-3-flash-preview" Batch.initial = (Batch.Throw e, s')
      /\ Batch.attempts (Batch.trace s')
         = Batch.attempts (Batch.trace Batch.initial) + Batch.MAX_RETRIES Batch.CONFIG
      /\ Batch.trace s'
         = later ++ Batch.EvGenerate key "gemini-3-flash-preview" "Write about tea." :: h
      /\ Batch.attempts later = 0
      /\ Batch.failureOf
           (Batch.generateContent Examples.failingEnv h key "gemini-3-flash-preview"
              "Write about tea.") = Some e.
Proof.
  assert (0 < Batch.MAX_RETRIES Batch.CONFIG) as Hmax by (cbn; lia).
  assert (Batch.alwaysFails Examples.failingEnv) as Hfail
    by (intros h key model contents; eexists; reflexivity).
  split; [exact Hmax|]. split; [exact Hfail|].
  exact (generateWithRetry_exhausts Batch.CONFIG ["k1"; "k2"] Examples.failingEnv
           "Write about tea." "gemini-3-flash-preview" Batch.initial Hmax Hfail).
Defined.

(** The first attempt gets an empty response: it is counted, and the loop
    goes on with the second attempt. *)
Lemma generateWithRetry_retries_after_empty_response :
  let s1 := {| Batch.keyIndex := 1;
               Batch.trace := [Batch.EvSleep 1000; Batch.EvLogRetry 1 5;
                               Batch.EvGenerate (Some "k1") "gemini-3-flash-preview"
                                 "Write about tea.";
                               Batch.EvSleep 1200] |} in
  Batch.retryLoop Batch.CONFIG ["k1"; "k2"] Examples.emptyEnv 5
    "Write about tea." "gemini-3-flash-preview" 0 Batch.initial
  = Batch.retryLoop Batch.CONFIG ["k1"; "k2"] Examples.emptyEnv 4
      "Write about tea." "gemini-3-flash-preview" 1 s1
  /\ Batch.attempts (Batch.trace s1) = 1.
Proof.
  intros s1.
  pose proof (generateWithRetry_empty_response_is_failure Batch.CONFIG ["k1"; "k2"]
                Examples.emptyEnv "Write about tea." "gemini-3-flash-preview" 4 0
                Batch.initial (Some "")) as H.
  cbv zeta in H.
  destruct H as (Hloop & Hone & _); [cbn; lia | reflexivity | reflexivity |].
  split; [|exact Hone]. rewrite Hloop. reflexivity.
Defined.

(** Three keys, four calls: the fourth returns the first key again. *)
Lemma getNextGemini_wraps_around :
  1 <= List.length ["k1"; "k2"; "k3"]
  /\ 1 <= 4
  /\ exists ais s',
      Batch.successive ["k1"; "k2"; "k3"] 4 Batch.initial = (Batch.Return ais, s')
      /\ ais !! (4 - 1) = Some (mkGenAI (Some "k1"))
      /\ ais !! 0 = Some (mkGenAI (Some "k1")).
Proof.
  assert (1 <= List.length ["k1"; "k2"; "k3"]) as HN by (cbn; lia).
  assert (1 <= 4) as Hk by lia.
  split; [exact HN|]. split; [exact Hk|].
  destruct (credential_selection ["k1"; "k2"; "k3"] 4 HN Hk)
    as ((ais & s' & Hrun & _ & Hall & Hlast) & _).
  exists ais, s'. split; [exact Hrun|]. split; [exact Hlast|].
  exact (proj1 (Hall 0 ltac:(lia))).
Defined.

(** A stored job takes whatever it is given. *)
Lemma updateJob_merges_on_completed_job :
  let u := Server.progressUpdate (Some Server.failed) 0 "An error occurred" in
  Server.jobs Examples.doneWorld !! "j1" = Some Examples.doneJob
  /\ Server.status (Server.merged 3 u Examples.doneJob) = Server.failed
  /\ Server.endTime (Server.merged 3 u Examples.doneJob) = Some 3.
Proof.
  intros u.
  assert (Server.jobs Examples.doneWorld !! "j1" = Some Examples.doneJob) as Hj
    by apply lookup_singleton_eq.
  destruct (updateJob_merges_without_validation 3 "j1" u Examples.doneWorld
              Examples.doneJob Hj) as (_ & Hst & Hend & _).
  split; [exact Hj|]. split; [exact Hst|]. apply Hend. by right.
Defined.

(** The progress of a run in which everything succeeds. *)
Lemma processFile_progress_of_successful_run :
  Server.progress <$>
    Server.since Examples.emptyWorld
      (fst (Server.processFile None Examples.okScript "X" "https://src/X"
              Examples.demoConfig Examples.emptyWorld)) "job-1"
  = [0; 5; 10; 30; 70; 90; 100].
Proof.
  destruct (processFile_progress_monotone None Examples.okScript "X" "https://src/X"
              Examples.demoConfig Examples.emptyWorld) as [_ Hok].
  destruct (Hok "job-1" "X" "https://cdn/article_X.mdx" "Tea is a drink." eq_refl)
    as [Hprogress _].
  exact Hprogress.
Defined.

(** The status call is rejected: the server completes the job, the batch
    tool reports the file as failed. *)
Lemma reconciliation_error_in_both_programs :
  (exists w' job,
      Server.processFile None Examples.putFailsScript "X" "https://src/X"
        Examples.demoConfig Examples.emptyWorld
      = (w', Some (Server.Success "job-1" "X" "https://cdn/article_X.mdx"
                     "Tea is a drink."))
      /\ Server.jobs w' !! "job-1" = Some job
      /\ Server.status job = Server.completed
      /\ Server.result job = Some "https://cdn/article_X.mdx")
  /\ (exists s' earlier,
        Batch.processFile Batch.CONFIG ["k1"; "k2"] Examples.putFailsEnv Examples.slug
          Examples.teaFile "gemini-3-flash-preview" Batch.initial
        = (Batch.Return {| Batch.success := false; Batch.name := "tea.txt";
                           Batch.error := Some "Request failed with status code 500" |},
           s')
        /\ Batch.trace s' =
           Batch.EvLogFailed "tea.txt" "Request failed with status code 500"
           :: Batch.EvPut "a"
           :: Batch.EvWriteFile "tea.txt.mdx" "Tea is a drink."
           :: earlier).
Proof.
  destruct reconciliation_error_server_swallows_batch_reports as [Hserver Hbatch].
  split.
  - destruct (Hserver None Examples.putFailsScript "X" "https://src/X"
                Examples.demoConfig Examples.emptyWorld
                (DataString "Write about tea.") (mkGenAI (Some "k2"))
                "Tea is a drink." "https://cdn/article_X.mdx"
                (Error "Request failed with status code 500"))
      as (w' & job & Hrun & Hjob & Hst & _ & Hres & _);
      [reflexivity | reflexivity | reflexivity | discriminate | reflexivity | reflexivity |].
    exists w', job. split; [exact Hrun|]. split; [exact Hjob|]. split; [exact Hst | exact Hres].
  - apply (Hbatch Batch.CONFIG ["k1"; "k2"] Examples.putFailsEnv Examples.slug
             Examples.teaFile "gemini-3-flash-preview" "Tea is a drink."
             (DataString "Write about tea.")
             (Error "Request failed with status code 500") Batch.initial);
      [cbn; lia | discriminate | reflexivity | reflexivity | reflexivity | reflexivity].
Defined.

(** The source cannot be downloaded: the job fails and nothing is put. *)
Lemma processFile_fetch_failure_on_network_error :
  Server.fetchResponse Examples.fetchFailsScript = Rejected (Error "Network Error")
  /\ exists w' job,
      Server.processFile None Examples.fetchFailsScript "X" "https://src/X"
        Examples.demoConfig Examples.emptyWorld
      = (w', Some (Server.Failure (Error "Failed to fetch prompt file: Network Error")))
      /\ Server.jobs w' !! "job-1" = Some job
      /\ Server.status job = Server.failed
      /\ Server.calls w' =
         [Server.LogError "job-1" "Failed to fetch prompt file: Network Error";
          Server.CallGet "https://src/X"].
Proof.
  split; [reflexivity|].
  destruct (processFile_fetch_failure None Examples.fetchFailsScript "X" "https://src/X"
              Examples.demoConfig Examples.emptyWorld (Error "Network Error") eq_refl)
    as (w' & job & Hrun & Hjob & Hst & _ & _ & Hcalls & _).
  exists w', job. split; [exact Hrun|]. split; [exact Hjob|]. split; [exact Hst | exact Hcalls].
Defined.


End Instances.

(** * More of the batch tool *)
Section RetryFacts.
Import Js Batch BatchMain.

Variable cfg : Config.
Variable apiKeys : list string.
Variable env : Env.

Lemma slept_app (l1 l2 : list Event) : slept (l1 ++ l2) = slept l1 + slept l2.
Proof.
  unfold slept. induction l1 as [|e l1 IH]; [done|].
  cbn [app foldr]. rewrite IH. destruct e; lia.
Qed.

Lemma slept_backoff (a : nat) (e : JsError) : slept (backoff cfg a e) = 1000 * a.
Proof. unfold backoff. destruct (decide _); cbn; lia. Qed.

Lemma effects_app (l1 l2 : list Event) : effects (l1 ++ l2) = effects l2 ++ effects l1.
Proof. unfold effects. by rewrite List.filter_app, rev_app_distr. Qed.

Lemma effects_backoff (a : nat) (e : JsError) : effects (backoff cfg a e) = [].
Proof. unfold backoff. by destruct (decide _). Qed.

Lemma keysUsed_app (l1 l2 : list Event) : keysUsed (l1 ++ l2) = keysUsed l1 ++ keysUsed l2.
Proof. apply omap_app. Qed.

Lemma keysUsed_backoff (a : nat) (e : JsError) : keysUsed (backoff cfg a e) = [].
Proof. unfold backoff. by destruct (decide _). Qed.

(** What a run of the retry loop adds to the history, and how it ends:
    no more calls than attempts are left; a text that is returned is the
    answer to the last call, after which nothing happens; an error is
    thrown only when every attempt that was left has failed. *)
Lemma retryLoop_run (promptText model : string) (fuel a : nat) (s : State) :
  MAX_RETRIES cfg - a < fuel ->
  exists new,
    trace (snd (retryLoop cfg apiKeys env fuel promptText model a s)) = new ++ trace s
    /\ a + attempts new <= Nat.max a (MAX_RETRIES cfg)
    /\ effects new = []
    /\ 2 * slept new + 1000 * (a * (a + 1))
       <= 2 * (attempts new * REQUEST_DELAY cfg)
          + 1000 * ((a + attempts new) * (a + attempts new + 1))
    /\ match fst (retryLoop cfg apiKeys env fuel promptText model a s) with
       | Return (Some t) =>
         t <> "" /\ 1 <= attempts new
         /\ exists h key,
             new ++ trace s = EvGenerate key model promptText :: h
             /\ generateContent env h key model promptText = Resolved (Some t)
       | Return None => new = [] /\ MAX_RETRIES cfg <= a
       | Throw e =>
         a + attempts new = MAX_RETRIES cfg /\ 1 <= attempts new
         /\ 2 * slept new + 1000 * (a * (a + 1))
            = 2 * (attempts new * REQUEST_DELAY cfg)
              + 1000 * ((a + attempts new) * (a + attempts new + 1))
       | Stuck => False
       end.
Proof.
  revert a s. induction fuel as [|fuel IH]; intros a s Hfuel; [lia|].
  destruct (decide (a < MAX_RETRIES cfg)) as [Ha|Ha].
  - rewrite retryLoop_unfold by done. rewrite retryTurn_spec.
    set (key := apiKeys !! keyIndex s).
    destruct (failureOf (generateContent env (EvSleep (REQUEST_DELAY cfg) :: trace s)
                           key model promptText)) as [e|] eqn:Hr.
    + destruct (MAX_RETRIES cfg <=? a + 1) eqn:Hlast.
      * apply Nat.leb_le in Hlast. cbn [fst snd trace].
        exists (backoff cfg (a + 1) e
                ++ [EvGenerate key model promptText; EvSleep (REQUEST_DELAY cfg)]).
        rewrite <- List.app_assoc. split; [done|].
        rewrite attempts_app, attempts_backoff, effects_app, effects_backoff,
          slept_app, slept_backoff.
        change (attempts [_; _]) with 1. change (effects [_; _]) with (@nil Event).
        change (slept [_; _]) with (REQUEST_DELAY cfg + 0).
        repeat split; try done; nia.
      * apply Nat.leb_gt in Hlast.
        match goal with
        | |- context [retryLoop _ _ _ fuel _ _ ?a' ?s1] =>
          destruct (IH a' s1 ltac:(lia)) as (new & Htr & Hn & Heff & Hsl & Hend)
        end.
        cbn [trace] in Htr.
        exists (new ++ backoff cfg (a + 1) e
                ++ [EvGenerate key model promptText; EvSleep (REQUEST_DELAY cfg)]).
        rewrite Htr. rewrite <- !List.app_assoc. split; [done|].
        rewrite !attempts_app, attempts_backoff, !effects_app, effects_backoff, Heff,
          !slept_app, slept_backoff.
        change (attempts [_; _]) with 1. change (effects [_; _]) with (@nil Event).
        change (slept [_; _]) with (REQUEST_DELAY cfg + 0).
        split; [lia|]. split; [done|]. split; [nia|].
        destruct (fst (retryLoop _ _ _ fuel _ _ _ _)) as [[t|]|e'|].
        -- destruct Hend as (Ht & Hone & h' & key' & Hh & Hresp).
           split; [done|]. split; [lia|]. exists h', key'. split; [|done].
           rewrite <- Hh. by rewrite <- ?List.app_assoc.
        -- destruct Hend as [_ ?]. lia.
        -- destruct Hend as (Hsum & Hone & Hslept). split; [lia|]. split; [lia|]. nia.
        -- done.
    + apply failureOf_None in Hr as (t & Hr & Ht). rewrite Hr. cbn [fst snd trace].
      exists [EvGenerate key model promptText; EvSleep (REQUEST_DELAY cfg)].
      split; [done|]. change (attempts [_; _]) with 1.
      change (slept [_; _]) with (REQUEST_DELAY cfg + 0).
      split; [lia|]. split; [done|]. split; [nia|].
      split; [done|]. split; [lia|]. by eexists _, key.
  - simpl. pose proof Ha as Ha'. apply Nat.ltb_nlt in Ha'. rewrite Ha'.
    exists []. cbn. repeat split; try done; lia.
Qed.

(** X1.  Whatever the provider does, [generateWithRetry] makes at most
    [MAX_RETRIES] generation calls (and at least one, when [MAX_RETRIES] is
    not 0).  A text it returns is not empty and is what the provider
    answered to the last call made, with nothing done after it; and it
    throws only when all [MAX_RETRIES] attempts have been used. *)
Theorem generateWithRetry_bounded (promptText model : string) (s : State) :
  exists new,
    trace (snd (generateWithRetry cfg apiKeys env promptText model s)) = new ++ trace s
    /\ attempts new <= MAX_RETRIES cfg
    /\ (0 < MAX_RETRIES cfg -> 1 <= attempts new)
    /\ (forall t,
          fst (generateWithRetry cfg apiKeys env promptText model s) = Return (Some t) ->
          t <> ""
          /\ exists h key,
              trace (snd (generateWithRetry cfg apiKeys env promptText model s))
                = EvGenerate key model promptText :: h
              /\ generateContent env h key model promptText = Resolved (Some t))
    /\ (forall e,
          fst (generateWithRetry cfg apiKeys env promptText model s) = Throw e ->
          attempts new = MAX_RETRIES cfg).
Proof.
  unfold generateWithRetry.
  destruct (retryLoop_run promptText model (S (MAX_RETRIES cfg)) 0 s ltac:(lia))
    as (new & Htr & Hn & _ & _ & Hend).
  exists new. split; [done|]. split; [lia|]. split; [|split].
  - intros Hmax.
    destruct (fst (retryLoop _ _ _ _ _ _ _ _)) as [[t|]|e|]; [| |lia|done].
    + by destruct Hend as (_ & ? & _).
    + destruct Hend as [_ ?]. lia.
  - intros t Hret. rewrite Hret in Hend. destruct Hend as (Ht & _ & h & key & Hh & Hresp).
    split; [done|]. exists h, key. by rewrite Htr.
  - intros e Hthrow. rewrite Hthrow in Hend. lia.
Qed.

(** X2.  The time [generateWithRetry] spends sleeping is bounded: the
    courtesy pause before each call and a backoff of 1000 ms times the
    attempt number after each failure, in all at most
    [MAX_RETRIES * REQUEST_DELAY + 1000 * (1 + ... + MAX_RETRIES)]; when it
    throws, it has slept exactly that long. *)
Theorem generateWithRetry_sleep_bound (promptText model : string) (s : State) :
  exists new,
    trace (snd (generateWithRetry cfg apiKeys env promptText model s)) = new ++ trace s
    /\ 2 * slept new
       <= 2 * (MAX_RETRIES cfg * REQUEST_DELAY cfg)
          + 1000 * (MAX_RETRIES cfg * (MAX_RETRIES cfg + 1))
    /\ (forall e,
          fst (generateWithRetry cfg apiKeys env promptText model s) = Throw e ->
          2 * slept new
          = 2 * (MAX_RETRIES cfg * REQUEST_DELAY cfg)
            + 1000 * (MAX_RETRIES cfg * (MAX_RETRIES cfg + 1))).
Proof.
  unfold generateWithRetry.
  destruct (retryLoop_run promptText model (S (MAX_RETRIES cfg)) 0 s ltac:(lia))
    as (new & Htr & Hn & _ & Hsl & Hend).
  exists new. split; [done|]. split.
  - assert (attempts new <= MAX_RETRIES cfg) as Hle by lia. nia.
  - intros e Hthrow. rewrite Hthrow in Hend. destruct Hend as (Hsum & _ & Heq).
    cbn in Hsum. rewrite <- Hsum. nia.
Qed.

(** The keys a run of the retry loop uses: one after the other round the
    pool, starting at the rotation index, which ends advanced by the
    number of calls. *)
Lemma retryLoop_keys (promptText model : string) (fuel a : nat) (s : State) :
  keyIndex s < List.length apiKeys ->
  exists new,
    trace (snd (retryLoop cfg apiKeys env fuel promptText model a s)) = new ++ trace s
    /\ rev (keysUsed new)
       = (fun j => apiKeys !! ((keyIndex s + j) mod List.length apiKeys))
           <$> seq 0 (attempts new)
    /\ keyIndex (snd (retryLoop cfg apiKeys env fuel promptText model a s))
       = (keyIndex s + attempts new) mod List.length apiKeys.
Proof.
  set (N := List.length apiKeys).
  revert a s. induction fuel as [|fuel IH]; intros a s Hk.
  { exists []. cbn. by rewrite Nat.add_0_r, Nat.mod_small. }
  destruct (decide (a < MAX_RETRIES cfg)) as [Ha|Ha].
  - rewrite retryLoop_unfold by done. rewrite retryTurn_spec. fold N.
    set (key := apiKeys !! keyIndex s).
    assert (forall later,
              attempts later = 0 -> keysUsed later = [] ->
              rev (keysUsed (later ++ [EvGenerate key model promptText;
                                       EvSleep (REQUEST_DELAY cfg)]))
                = (fun j => apiKeys !! ((keyIndex s + j) mod N)) <$> seq 0 1
              /\ attempts (later ++ [EvGenerate key model promptText;
                                     EvSleep (REQUEST_DELAY cfg)]) = 1) as Hone.
    { intros later Hl Hkeys. rewrite keysUsed_app, attempts_app, Hkeys, Hl. cbn.
      by rewrite Nat.add_0_r, Nat.mod_small. }
    destruct (failureOf (generateContent env (EvSleep (REQUEST_DELAY cfg) :: trace s)
                           key model promptText)) as [e|] eqn:Hr.
    + destruct (MAX_RETRIES cfg <=? a + 1) eqn:Hlast.
      * cbn [fst snd trace keyIndex].
        destruct (Hone (backoff cfg (a + 1) e) (attempts_backoff cfg _ _)
                    (keysUsed_backoff _ _)) as [Hkeys Hn].
        exists (backoff cfg (a + 1) e
                ++ [EvGenerate key model promptText; EvSleep (REQUEST_DELAY cfg)]).
        rewrite <- List.app_assoc. split; [done|]. by rewrite Hkeys, Hn.
      * match goal with
        | |- context [retryLoop _ _ _ fuel _ _ ?a' ?s1] =>
          destruct (IH a' s1) as (new & Htr & Hkeys & Hidx)
        end.
        { cbn [keyIndex]. apply Nat.mod_upper_bound. unfold N. lia. }
        cbn [trace keyIndex] in Htr, Hkeys, Hidx.
        destruct (Hone (backoff cfg (a + 1) e) (attempts_backoff cfg _ _)
                    (keysUsed_backoff _ _)) as [Hkeys1 Hn1].
        exists (new ++ backoff cfg (a + 1) e
                ++ [EvGenerate key model promptText; EvSleep (REQUEST_DELAY cfg)]).
        rewrite Htr, Hidx. rewrite <- !List.app_assoc. split; [done|].
        rewrite (keysUsed_app new), rev_app_distr, Hkeys1, Hkeys.
        rewrite (attempts_app new), Hn1.
        replace (attempts new + 1) with (1 + attempts new) by lia.
        rewrite seq_app, fmap_app. split.
        -- f_equal. cbn [Nat.add]. rewrite <- fmap_S_seq, <- list_fmap_compose.
           apply list_fmap_ext. intros _ j _. cbn. f_equal.
           rewrite Nat.Div0.add_mod_idemp_l. f_equal. lia.
        -- rewrite Nat.Div0.add_mod_idemp_l. f_equal. lia.
    + apply failureOf_None in Hr as (t & Hr & Ht). rewrite Hr. cbn [fst snd trace keyIndex].
      destruct (Hone [] eq_refl eq_refl) as [Hkeys Hn]. cbn [app] in Hkeys, Hn.
      exists [EvGenerate key model promptText; EvSleep (REQUEST_DELAY cfg)].
      split; [done|]. by rewrite Hkeys, Hn.
  - simpl. pose proof Ha as Ha'. apply Nat.ltb_nlt in Ha'. rewrite Ha'.
    exists []. cbn. by rewrite Nat.add_0_r, Nat.mod_small.
Qed.

(** X3.  [generateWithRetry] takes a new key for every attempt, whatever
    made the attempt before fail: starting from a rotation index inside
    the pool, its calls use the keys at that index, the next, and so on
    round the pool; each is a key of the pool; and the index is left
    advanced by the number of calls made. *)
Theorem generateWithRetry_rotates_keys (promptText model : string) (s : State) :
  keyIndex s < List.length apiKeys ->
  exists new,
    trace (snd (generateWithRetry cfg apiKeys env promptText model s)) = new ++ trace s
    /\ rev (keysUsed new)
       = (fun j => apiKeys !! ((keyIndex s + j) mod List.length apiKeys))
           <$> seq 0 (attempts new)
    /\ Forall (fun k => exists key, k = Some key /\ key ∈ apiKeys) (keysUsed new)
    /\ keyIndex (snd (generateWithRetry cfg apiKeys env promptText model s))
       = (keyIndex s + attempts new) mod List.length apiKeys.
Proof.
  intros Hk. unfold generateWithRetry.
  destruct (retryLoop_keys promptText model (S (MAX_RETRIES cfg)) 0 s Hk)
    as (new & Htr & Hkeys & Hidx).
  exists new. split; [done|]. split; [done|]. split; [|done].
  rewrite <- (rev_involutive (keysUsed new)). apply Forall_rev. rewrite Hkeys.
  apply Forall_fmap, Forall_forall. intros j _. cbn.
  destruct (lookup_lt_is_Some_2 apiKeys ((keyIndex s + j) mod List.length apiKeys))
    as [key Hkey]; [apply Nat.mod_upper_bound; lia|].
  exists key. split; [done|]. by eapply list_elem_of_lookup_2.
Qed.

End RetryFacts.

Section PipelineFacts.
Import Js Batch BatchMain.

Variable cfg : Config.
Variable apiKeys : list string.
Variable env : Env.
Variable generateSafeFilename : string -> string.

Lemma effects_cons (e : Event) (l : list Event) :
  effects (e :: l) = effects l ++ (if isEffect e then [e] else []).
Proof. unfold effects. cbn [List.filter]. destruct (isEffect e); cbn; by rewrite ?app_nil_r. Qed.

(** What [generateWithRetry] adds to the history holds no call to the
    source, the disk or the external store; it never runs out of fuel. *)
Lemma generateWithRetry_run (promptText model : string) (s : State) :
  exists new,
    trace (snd (generateWithRetry cfg apiKeys env promptText model s)) = new ++ trace s
    /\ effects new = []
    /\ match fst (generateWithRetry cfg apiKeys env promptText model s) with
       | Return (Some t) => t <> "" /\ 1 <= attempts new
       | Return None => MAX_RETRIES cfg = 0
       | Throw _ => True
       | Stuck => False
       end.
Proof.
  unfold generateWithRetry.
  destruct (retryLoop_run cfg apiKeys env promptText model (S (MAX_RETRIES cfg)) 0 s
              ltac:(lia)) as (new & Htr & _ & Heff & _ & Hend).
  exists new. split; [done|]. split; [done|].
  destruct (fst (retryLoop _ _ _ _ _ _ _ _)) as [[t|]|e|]; try done.
  - by destruct Hend as (? & ? & _).
  - destruct Hend as [_ ?]. lia.
Qed.

Ltac trace_eq :=
  repeat match goal with x := _ : State |- _ => subst x end;
  cbn [trace app]; rewrite <- ?List.app_assoc; reflexivity.

(** X4.  [processFile] of the batch tool always returns a result, and goes
    through its stages in order: the download, then (after generation has
    returned a text that is not empty) the write of the file under the
    safe name, then the status call.  A success result carries the safe
    name and no error and means that all three were made; a failure result
    carries the original name and an error message, and what was done up
    to the failing stage stays done: nothing is rolled back. *)
Theorem batch_processFile_stages (file : File) (model : string) (s : State) :
  exists r s' new,
    processFile cfg apiKeys env generateSafeFilename file model s = (Return r, s')
    /\ trace s' = new ++ trace s
    /\ let url := secureUrl file in
       let safe := generateSafeFilename (originalFilename file) in
       if success r then
         name r = safe /\ error r = None
         /\ exists content,
             content <> ""
             /\ effects new = [EvGet url; EvWriteFile safe content; EvPut (_id file)]
       else
         name r = originalFilename file /\ is_Some (error r)
         /\ (effects new = [EvGet url]
             \/ exists content,
                 content <> ""
                 /\ (effects new = [EvGet url; EvWriteFile safe content]
                     \/ effects new = [EvGet url; EvWriteFile safe content;
                                        EvPut (_id file)])).
Proof.
  unfold processFile, try_catch.
  unfold bind at 1. cbn [emit].
  set (s0 := {| keyIndex := keyIndex s; trace := _ |}).
  unfold bind at 1. cbn [history].
  unfold bind at 1. cbn [emit].
  set (s1 := {| keyIndex := keyIndex s0; trace := _ |}).
  unfold bind at 1.
  destruct (axios_get env _ (secureUrl file)) as [data|e]; cbn [await ret throw].
  - unfold bind at 1.
    destruct (generateWithRetry_run (textOf data) model s1) as (newg & Htr & Heff & Hend).
    destruct (generateWithRetry cfg apiKeys env (textOf data) model s1) as [c s2].
    cbn [fst snd] in Htr, Hend. cbn [trace] in Htr.
    destruct c as [[t|]|e|]; [| | |done].
    + destruct Hend as [Ht _].
      unfold writeGenerated, markCompleted, bind, history, emit, ret, throw.
      cbn [trace keyIndex].
      destruct (writeFileSync env _ _ t) as [e|].
      * eexists _, _, (_ :: _ :: newg ++ [_; _]). split; [reflexivity|].
        cbn [trace]. rewrite Htr. split; [trace_eq|].
        cbn [success name error]. split; [done|]. split; [done|].
        right. exists t. split; [done|]. left.
        rewrite !effects_cons, effects_app, Heff. reflexivity.
      * destruct (axios_put env _ (_id file)) as [e|].
        -- eexists _, _, (_ :: _ :: _ :: newg ++ [_; _]). split; [reflexivity|].
           cbn [trace]. rewrite Htr. split; [trace_eq|].
           cbn [success name error]. split; [done|]. split; [done|].
           right. exists t. split; [done|]. right.
           rewrite !effects_cons, effects_app, Heff. reflexivity.
        -- eexists _, _, (_ :: _ :: _ :: newg ++ [_; _]). split; [reflexivity|].
           cbn [trace]. rewrite Htr. split; [trace_eq|].
           cbn [success name error]. split; [done|]. split; [done|].
           exists t. split; [done|].
           rewrite !effects_cons, effects_app, Heff. reflexivity.
    + unfold writeGenerated, bind, emit, ret, throw. cbn [trace keyIndex].
      eexists _, _, (_ :: newg ++ [_; _]). split; [reflexivity|].
      cbn [trace]. rewrite Htr. split; [trace_eq|].
      cbn [success name error]. split; [done|]. split; [done|]. left.
      rewrite !effects_cons, effects_app, Heff. reflexivity.
    + unfold bind, emit, ret. cbn [trace keyIndex].
      eexists _, _, (_ :: newg ++ [_; _]). split; [reflexivity|].
      cbn [trace]. rewrite Htr. split; [trace_eq|].
      cbn [success name error]. split; [done|]. split; [done|]. left.
      rewrite !effects_cons, effects_app, Heff. reflexivity.
  - unfold bind, emit, ret. cbn [trace keyIndex].
    eexists _, _, [_; _; _]. split; [reflexivity|]. split; [reflexivity|].
    cbn [success name error]. split; [done|]. split; [done|]. by left.
Qed.

(** The run of [processFile] in which every stage succeeds at once. *)
Lemma processFile_good_run (file : File) (model text : string)
    (data : ResponseData) (s : State) :
  0 < MAX_RETRIES cfg ->
  text <> "" ->
  (forall h, axios_get env h (secureUrl file) = Resolved data) ->
  (forall h key, generateContent env h key model (textOf data) = Resolved (Some text)) ->
  (forall h name, writeFileSync env h name text = None) ->
  (forall h, axios_put env h (_id file) = None) ->
  let safe := generateSafeFilename (originalFilename file) in
  processFile cfg apiKeys env generateSafeFilename file model s =
    (Return {| success := true; name := safe; error := None |},
     {| keyIndex := (keyIndex s + 1) mod List.length apiKeys;
        trace := [EvLogDone safe; EvPut (_id file); EvWriteFile safe text;
                  EvGenerate (apiKeys !! keyIndex s) model (textOf data);
                  EvSleep (REQUEST_DELAY cfg); EvGet (secureUrl file);
                  EvLogProcessing (originalFilename file)] ++ trace s |}).
Proof.
  intros Hmax Htext Hget Hgen Hwrite Hput safe.
  unfold processFile, try_catch.
  unfold bind at 1. cbn [emit].
  unfold bind at 1. cbn [history].
  unfold bind at 1. cbn [emit trace keyIndex].
  unfold bind at 1. rewrite Hget. cbn [await ret].
  unfold bind at 1.
  rewrite (generateWithRetry_first_try cfg apiKeys env _ model text) by auto.
  unfold writeGenerated, markCompleted, bind, history, emit, ret, throw.
  cbn [trace keyIndex]. rewrite Hwrite, Hput. reflexivity.
Qed.

(** X5.  When the download, the first generation call, the write and the
    status call all succeed, [processFile] of the batch tool makes exactly
    one generation call, with the key under the rotation index, writes the
    text it got unchanged under the safe name, tells the external store,
    and returns success under the safe name. *)
Theorem batch_processFile_success (file : File) (model text : string)
    (data : ResponseData) (s : State) :
  0 < MAX_RETRIES cfg ->
  text <> "" ->
  (forall h, axios_get env h (secureUrl file) = Resolved data) ->
  (forall h key, generateContent env h key model (textOf data) = Resolved (Some text)) ->
  (forall h name, writeFileSync env h name text = None) ->
  (forall h, axios_put env h (_id file) = None) ->
  let safe := generateSafeFilename (originalFilename file) in
  let s' := snd (processFile cfg apiKeys env generateSafeFilename file model s) in
  fst (processFile cfg apiKeys env generateSafeFilename file model s)
    = Return {| success := true; name := safe; error := None |}
  /\ attempts (trace s') = attempts (trace s) + 1
  /\ keysUsed (trace s') = (apiKeys !! keyIndex s) :: keysUsed (trace s)
  /\ keyIndex s' = (keyIndex s + 1) mod List.length apiKeys
  /\ trace s' =
     [EvLogDone safe; EvPut (_id file); EvWriteFile safe text;
      EvGenerate (apiKeys !! keyIndex s) model (textOf data);
      EvSleep (REQUEST_DELAY cfg); EvGet (secureUrl file);
      EvLogProcessing (originalFilename file)] ++ trace s.
Proof.
  intros Hmax Htext Hget Hgen Hwrite Hput safe s'. subst s'.
  rewrite (processFile_good_run file model text data s) by done.
  cbn [fst snd trace keyIndex]. split; [done|].
  split; [unfold attempts; cbn; lia|]. by repeat split.
Qed.

End PipelineFacts.

Section QueueOrder.
Import Js Batch BatchMain.

Variable cfg : Config.
Variable apiKeys : list string.
Variable env : Env.
Variable generateSafeFilename : string -> string.
Variable files : list File.
Variable model : string.

(** The invariants of the queue hold along the canonical run of the event
    loop as well. *)
Lemma drain_invariant (fuel : nat) (q : Queue) :
  consistent files q ->
  attributed cfg apiKeys env generateSafeFilename files model q ->
  let q' := drain cfg apiKeys env generateSafeFilename files model fuel q in
  consistent files q'
  /\ attributed cfg apiKeys env generateSafeFilename files model q'.
Proof.
  revert q. induction fuel as [|fuel IH]; intros q Hq Hat; cbn [drain]; [done|].
  destruct (firstRunning (workers q) 0) as [w|]; [|done].
  apply IH; [by apply resume_consistent | by apply resume_attributed].
Qed.

(** [runQueue] settles, and the queue it leaves has every worker out, the
    cursor at the end and one attributed result for each file. *)
Lemma runQueue_settles (s : State) :
  1 <= CONCURRENCY_LIMIT cfg ->
  let q := drain cfg apiKeys env generateSafeFilename files model
             (List.length files) (startWorkers cfg files s) in
  runQueue cfg apiKeys env generateSafeFilename files model s
    = Some (results q, proc q)
  /\ consistent files q
  /\ attributed cfg apiKeys env generateSafeFilename files model q
  /\ running (workers q) = []
  /\ index q = List.length files
  /\ List.length (results q) = List.length files.
Proof.
  intros HC q.
  destruct (runSchedule_invariant cfg apiKeys env generateSafeFilename files model [] s)
    as (Hq0 & Hat0 & Hlen0).
  change (runSchedule _ _ _ _ _ _ [] s) with (startWorkers cfg files s) in Hq0, Hat0, Hlen0.
  destruct (drain_invariant (List.length files) _ Hq0 Hat0) as [Hq Hat]. fold q in Hq, Hat.
  destruct (drain_finishes cfg apiKeys env generateSafeFilename files model
              (List.length files) _ Hq0) as (_ & Hidle & Hws).
  { rewrite startWorkers_results. cbn. lia. }
  fold q in Hidle, Hws. rewrite Hlen0 in Hws.
  pose proof (idle_allFinished files q Hq Hidle) as Hall.
  destruct (allFinished_complete files q Hq ltac:(lia) Hall) as (Hidx & _ & Hres).
  split; [|split; [done|split; [done|split; [|done]]]].
  - unfold runQueue, settled. fold q. by rewrite Hall.
  - by apply (firstRunning_None _ 0).
Qed.

(** With one worker the items are finished in the order they are claimed. *)
Lemma drain_single_worker (fuel : nat) (q : Queue) :
  consistent files q ->
  List.length (workers q) = 1 ->
  origin q ++ running (workers q) = seq 0 (index q) ->
  let q' := drain cfg apiKeys env generateSafeFilename files model fuel q in
  origin q' ++ running (workers q') = seq 0 (index q').
Proof.
  revert q. induction fuel as [|fuel IH]; intros q Hq Hone Hord; cbn [drain]; [done|].
  destruct (firstRunning (workers q) 0) as [w|] eqn:Hw; [|done].
  apply firstRunning_Some in Hw as (i & Hi & _). rewrite Nat.sub_0_r in Hi.
  assert (workers q = [Running i]) as Hws.
  { destruct (workers q) as [|x [|y ws]]; try discriminate Hone.
    destruct w as [|w]; [|done]. cbn in Hi. by injection Hi as ->. }
  assert (w = 0) as -> by (rewrite Hws in Hi; by destruct w as [|[|w]]).
  apply IH.
  - by apply resume_consistent.
  - by rewrite resume_workers_length.
  - destruct (resume_running cfg apiKeys env generateSafeFilename files model q 0 i Hq Hi)
      as (file & result & s' & _ & _ & ->).
    rewrite Hws in Hord. cbn in Hord.
    unfold loopHead. cbn [index]. rewrite Hws.
    destruct (List.length files <=? index q);
      cbn [index origin workers setWorkers fst snd].
    + cbn. by rewrite app_nil_r.
    + cbn. by rewrite Nat.add_1_r, seq_S, Hord.
Qed.

(** X6.  With one worker, as the tool is configured, [runQueue] is a plain
    loop over the batch: it returns one result per file, in the order of
    the batch, the i-th result being what [processFile] returned for the
    i-th file. *)
Theorem runQueue_single_worker_in_order (s : State) :
  CONCURRENCY_LIMIT cfg = 1 ->
  exists rs s',
    runQueue cfg apiKeys env generateSafeFilename files model s = Some (rs, s')
    /\ Forall2 (resultOf cfg apiKeys env generateSafeFilename model) rs files.
Proof.
  intros HC.
  destruct (runQueue_settles s ltac:(lia)) as (Hrun & Hq & Hat & Hidle & Hidx & Hlen).
  set (q := drain _ _ _ _ _ _ _ _) in *.
  exists (results q), (proc q). split; [done|].
  assert (origin q = seq 0 (List.length files)) as Horigin.
  { pose proof (drain_single_worker (List.length files) (startWorkers cfg files s)
                  (startWorkers_consistent cfg files s)) as Hord.
    cbn zeta in Hord. fold q in Hord.
    rewrite Hidle, app_nil_r, Hidx in Hord. apply Hord.
    - by rewrite startWorkers_workers_length.
    - unfold startWorkers. rewrite HC. rewrite Nat.iter_succ. change (Nat.iter 0 ?f ?x) with x.
      unfold spawn, loopHead.
      cbn [index]. destruct (List.length files <=? 0); reflexivity. }
  unfold attributed in Hat. rewrite Horigin in Hat.
  apply Forall2_same_length_lookup. split; [done|].
  intros i r file Hr Hfile.
  assert (seq 0 (List.length files) !! i = Some i) as Hi.
  { pose proof (lookup_lt_Some _ _ _ Hfile) as Hlt. by rewrite lookup_seq_lt. }
  destruct (Forall2_lookup_lr _ _ _ _ _ _ Hat Hr Hi) as (file' & s0 & s1 & Hfile' & Hproc).
  rewrite Hfile in Hfile'. injection Hfile' as <-. by exists s0, s1.
Qed.

End QueueOrder.


Section RunFacts.
Import Js Batch BatchMain.

Variable cfg : Config.
Variable apiKeys : list string.
Variable env : Env.
Variable generateSafeFilename : string -> string.
Variable menv : MainEnv.

Lemma List_filter_sublist {A} (p : A -> bool) (l : list A) :
  List.filter p l `sublist_of` l.
Proof.
  induction l as [|x l IH]; cbn; [constructor|].
  destruct (p x); [by apply sublist_skip | by apply sublist_cons].
Qed.

Lemma pendingBatch_spec (data : list File) :
  List.length (pendingBatch cfg data) <= BATCH_SIZE cfg
  /\ pendingBatch cfg data `sublist_of` data
  /\ Forall (fun f => status f = "Pending") (pendingBatch cfg data).
Proof.
  unfold pendingBatch. split; [rewrite length_take; lia|]. split.
  - etrans; [apply sublist_take|]. apply List_filter_sublist.
  - apply Forall_take. apply Forall_forall. intros f Hf.
    apply list_elem_of_In, List.filter_In in Hf as [_ Hf]. by apply String.eqb_eq.
Qed.

Lemma partition_length (rs : list Result) :
  List.length (List.filter (fun r => success r) rs)
  + List.length (List.filter (fun r => negb (success r)) rs) = List.length rs.
Proof. induction rs as [|r rs IH]; [done|]. cbn. destruct (success r); cbn; lia. Qed.

(** X7.  With at least one worker and a listing that holds pending files,
    [run] hands to the queue the first [BATCH_SIZE] files of the listing
    whose status is [Pending], in the order of the listing, and no other;
    the queue returns one result per file; the results are split into
    successes and failures, which together are all of them; and the report
    mail, if mail is configured, is built from these two lists.  [run]
    returns normally unless sending the report fails. *)
Theorem run_processes_one_batch (data : list File) (s : State) :
  1 <= CONCURRENCY_LIMIT cfg ->
  listFiles menv = Resolved data ->
  pendingBatch cfg data <> [] ->
  let batch := pendingBatch cfg data in
  exists rs s' exit outbox,
    run cfg apiKeys env generateSafeFilename menv s = (exit, s', outbox)
    /\ runQueue cfg apiKeys env generateSafeFilename batch (modelOf menv) (listed s)
       = Some (rs, s')
    /\ List.length rs = List.length batch
    /\ List.length batch <= BATCH_SIZE cfg
    /\ batch `sublist_of` data
    /\ Forall (fun f => status f = "Pending") batch
    /\ let success := List.filter (fun r => success r) rs in
       let failed := List.filter (fun r => negb (Batch.success r)) rs in
       let report := {| subject := reportSubject menv success failed;
                        text := reportBody menv success failed |} in
       List.length success + List.length failed = List.length rs
       /\ (truthy (EMAIL_HOST menv) = false -> exit = Returned /\ outbox = [])
       /\ (truthy (EMAIL_HOST menv) = true ->
           last outbox = Some report
           /\ (exit = Returned <-> sendMail menv [] report = None)).
Proof.
  intros HC Hlist Hne batch.
  destruct (runQueue_settles cfg apiKeys env generateSafeFilename batch (modelOf menv)
              (listed s) HC) as (Hrun & _ & _ & _ & _ & Hlen).
  set (q := drain _ _ _ _ _ _ _ _) in *.
  destruct (pendingBatch_spec data) as (Hsize & Hsub & Hpending).
  unfold run. rewrite Hlist. fold batch.
  assert ((List.length batch =? 0) = false) as ->.
  { apply Nat.eqb_neq. intros H0. by apply nil_length_inv in H0. }
  cbv zeta. rewrite Hrun.
  unfold sendBatchEmail, sendEmail, fatal, sendEmail.
  destruct (truthy (EMAIL_HOST menv)) eqn:Hhost; cbn [negb].
  - destruct (sendMail menv [] _) as [e|] eqn:Hsend.
    + destruct (sendMail menv [_] _) as [e2|];
        (eexists _, _, _, _; split; [reflexivity|];
         repeat (split; [done|]); split; [apply partition_length|];
         split; [done|]; intros _; split; [reflexivity|];
         rewrite Hsend; by split).
    + eexists _, _, _, _. split; [reflexivity|].
      repeat (split; [done|]). split; [apply partition_length|].
      split; [done|]. intros _. split; [reflexivity|]. by rewrite Hsend.
  - eexists _, _, _, _. split; [reflexivity|].
    repeat (split; [done|]). split; [apply partition_length|]. by split.
Qed.

(** X8.  When the listing cannot be fetched or holds no pending file, [run]
    processes nothing: it makes no generation call, writes nothing and
    sends no status call.  Without pending files it returns without
    sending mail; after a failed listing it does not return normally, and
    if mail is configured it has tried to send [Batch Failed] with the
    message of the error. *)
Theorem run_without_work (s : State) :
  (forall e,
      listFiles menv = Rejected e ->
      exists exit outbox,
        run cfg apiKeys env generateSafeFilename menv s = (exit, listed s, outbox)
        /\ exit <> Returned
        /\ (truthy (EMAIL_HOST menv) = false -> exit = Exit1 /\ outbox = [])
        /\ (truthy (EMAIL_HOST menv) = true ->
            outbox = [{| subject := "Batch Failed"; text := message e |}]))
  /\ (forall data,
        listFiles menv = Resolved data ->
        Forall (fun f => status f <> "Pending") data \/ BATCH_SIZE cfg = 0 ->
        run cfg apiKeys env generateSafeFilename menv s = (Returned, listed s, []))
  /\ attempts (trace (listed s)) = attempts (trace s)
  /\ effects (trace (listed s)) = effects (trace s) ++ [EvGet EXTERNAL_API_URL].
Proof.
  split; [|split; [|split]].
  - intros e Hlist. unfold run, fatal, sendEmail. rewrite Hlist.
    destruct (truthy (EMAIL_HOST menv)); cbn [negb].
    + destruct (sendMail menv [] _); eexists _, _; by repeat split.
    + eexists _, _. by repeat split.
  - intros data Hlist Hnone. unfold run. rewrite Hlist.
    assert (pendingBatch cfg data = []) as ->; [|done].
    unfold pendingBatch. destruct Hnone as [Hnone| ->]; [|done].
    replace (List.filter _ data) with (@nil File); [by rewrite take_nil|].
    symmetry. clear Hlist. induction Hnone as [|f data Hf _ IH]; [done|]. cbn.
    destruct (String.eqb_spec (status f) "Pending"); [done | exact IH].
  - reflexivity.
  - unfold listed. cbn [trace]. unfold effects. cbn. reflexivity.
Qed.

(** Every result of the queue is a success when every stage of every file
    succeeds. *)
Lemma runQueue_all_good (files : list File) (model text : string)
    (data : ResponseData) (s : State) :
  1 <= CONCURRENCY_LIMIT cfg ->
  0 < MAX_RETRIES cfg ->
  text <> "" ->
  (forall h url, axios_get env h url = Resolved data) ->
  (forall h key, generateContent env h key model (textOf data) = Resolved (Some text)) ->
  (forall h name, writeFileSync env h name text = None) ->
  (forall h id, axios_put env h id = None) ->
  exists rs s',
    runQueue cfg apiKeys env generateSafeFilename files model s = Some (rs, s')
    /\ List.length rs = List.length files
    /\ Forall (fun r => success r = true /\ error r = None) rs.
Proof.
  intros HC Hmax Htext Hget Hgen Hwrite Hput.
  destruct (runQueue_settles cfg apiKeys env generateSafeFilename files model s HC)
    as (Hrun & _ & Hat & _ & _ & Hlen).
  set (q := drain _ _ _ _ _ _ _ _) in *.
  exists (results q), (proc q). split; [done|]. split; [done|].
  unfold attributed in Hat. eapply Forall2_Forall_l; [exact Hat|].
  apply Forall_forall. intros i _ r (file & s0 & s1 & _ & Hproc).
  rewrite (processFile_good_run cfg apiKeys env generateSafeFilename file model text data s0)
    in Hproc by auto.
  by injection Hproc as <- _.
Qed.

(** X9.  A batch in which every stage of every file succeeds is reported
    without failures: [run] returns, the list of failures of the report is
    empty and its list of successes has one entry for each file of the
    batch. *)
Theorem run_all_files_succeed (files : list File) (text : string)
    (data : ResponseData) (s : State) :
  1 <= CONCURRENCY_LIMIT cfg ->
  0 < MAX_RETRIES cfg ->
  listFiles menv = Resolved files ->
  pendingBatch cfg files <> [] ->
  text <> "" ->
  (forall h url, axios_get env h url = Resolved data) ->
  (forall h key, generateContent env h key (modelOf menv) (textOf data)
                 = Resolved (Some text)) ->
  (forall h name, writeFileSync env h name text = None) ->
  (forall h id, axios_put env h id = None) ->
  (forall outbox mail, sendMail menv outbox mail = None) ->
  exists rs s' outbox,
    run cfg apiKeys env generateSafeFilename menv s = (Returned, s', outbox)
    /\ List.length rs = List.length (pendingBatch cfg files)
    /\ Forall (fun r => success r = true) rs
    /\ (truthy (EMAIL_HOST menv) = true ->
        outbox = [{| subject := reportSubject menv rs []; text := reportBody menv rs [] |}])
    /\ (truthy (EMAIL_HOST menv) = false -> outbox = []).
Proof.
  intros HC Hmax Hlist Hne Htext Hget Hgen Hwrite Hput Hmail.
  destruct (runQueue_all_good (pendingBatch cfg files) (modelOf menv) text data (listed s)
              HC Hmax Htext Hget Hgen Hwrite Hput) as (rs & s' & Hrun & Hlen & Hall).
  assert (List.filter (fun r => success r) rs = rs
          /\ List.filter (fun r => negb (success r)) rs = []) as [Hs Hf].
  { clear Hrun Hlen. induction Hall as [|r rs [Hr _] _ [IH1 IH2]]; [done|].
    cbn. rewrite Hr. cbn. by rewrite IH1, IH2. }
  exists rs, s'. unfold run. rewrite Hlist.
  assert ((List.length (pendingBatch cfg files) =? 0) = false) as ->.
  { apply Nat.eqb_neq. intros H0. by apply nil_length_inv in H0. }
  cbv zeta. rewrite Hrun, Hs, Hf.
  unfold sendBatchEmail, sendEmail.
  destruct (truthy (EMAIL_HOST menv)); cbn [negb].
  - rewrite Hmail. eexists. split; [reflexivity|]. split; [done|].
    split; [by eapply Forall_impl; [exact Hall|]; intros r [? _]|]. by split.
  - eexists. split; [reflexivity|]. split; [done|].
    split; [by eapply Forall_impl; [exact Hall|]; intros r [? _]|]. by split.
Qed.

End RunFacts.

Section FolderFacts.
Import Js Batch BatchMain.

Lemma append_assoc (s1 s2 s3 : string) : (s1 +:+ s2) +:+ s3 = s1 +:+ (s2 +:+ s3).
Proof.
  induction s1 as [|a s1 IH]; [done|].
  change (String a ((s1 +:+ s2) +:+ s3) = String a (s1 +:+ (s2 +:+ s3))).
  by rewrite IH.
Qed.

Lemma append_nil_r (s : string) : s +:+ "" = s.
Proof.
  induction s as [|a s IH]; [done|].
  change (String a (s +:+ "") = String a s). by rewrite IH.
Qed.

Lemma rev_app_append (s acc : string) :
  String.rev_app s acc = String.rev_app s "" +:+ acc.
Proof.
  revert acc. induction s as [|a s IH]; intros acc; [done|].
  cbn. rewrite (IH (String a acc)), (IH (String a "")).
  by rewrite append_assoc.
Qed.

Lemma rev_append (s1 s2 : string) :
  String.rev (s1 +:+ s2) = String.rev s2 +:+ String.rev s1.
Proof.
  unfold String.rev. induction s1 as [|a s1 IH].
  - change (String.rev_app s2 "" = String.rev_app s2 "" +:+ "").
    by rewrite append_nil_r.
  - change (String.rev_app (s1 +:+ s2) (String a "")
            = String.rev_app s2 "" +:+ String.rev_app s1 (String a "")).
    rewrite rev_app_append, IH, (rev_app_append s1 (String a "")).
    by rewrite append_assoc.
Qed.

Lemma rev_rev (s : string) : String.rev (String.rev s) = s.
Proof.
  induction s as [|a s IH]; [done|].
  change (String a s) with (String a "" +:+ s) at 1.
  by rewrite rev_append, rev_append, IH.
Qed.

Lemma prefix_append (p s : string) : String.prefix p (p +:+ s) = true.
Proof.
  induction p as [|a p IH].
  - change (String.prefix "" s = true). by destruct s.
  - change (String.prefix (String a p) (String a (p +:+ s)) = true). cbn.
    destruct (Ascii.ascii_dec a a); [exact IH | done].
Qed.

Lemma prefix_split (p s : string) :
  String.prefix p s = true -> exists rest, s = p +:+ rest.
Proof.
  revert s. induction p as [|a p IH]; intros s; [by exists s|].
  destruct s as [|b s]; cbn; [done|].
  destruct (Ascii.ascii_dec a b) as [->|]; [|done].
  intros H. apply IH in H as [rest ->]. by exists rest.
Qed.

(** [endsWith] holds of the strings that end with the suffix, and of no
    other. *)
Lemma endsWith_spec (s suffix : string) :
  endsWith s suffix = true <-> exists front, s = front +:+ suffix.
Proof.
  unfold endsWith. split.
  - intros H. apply prefix_split in H as [rest H]. exists (String.rev rest).
    by rewrite <- (rev_rev s), H, rev_append, rev_rev.
  - intros [front ->]. rewrite rev_append. apply prefix_append.
Qed.

(** X10.  [getFolderStats] reports no files for a folder that does not
    exist; otherwise the number of names listed and, among them, the
    number of those that end in [.mdx], which is never more than the
    total and equals it exactly when every name ends in [.mdx]. *)
Theorem getFolderStats_counts (dir : option (list string)) :
  mdxFiles (getFolderStats dir) <= totalFiles (getFolderStats dir)
  /\ (dir = None -> getFolderStats dir = {| totalFiles := 0; mdxFiles := 0 |})
  /\ (forall files,
        dir = Some files ->
        totalFiles (getFolderStats dir) = List.length files
        /\ (mdxFiles (getFolderStats dir) = List.length files
            <-> Forall (fun f => exists front, f = front +:+ ".mdx") files)).
Proof.
  split; [|split].
  - destruct dir as [files|]; cbn; [|lia]. apply List.filter_length_le.
  - by intros ->.
  - intros files ->. cbn. split; [done|].
    induction files as [|f files IH]; cbn; [by split|].
    pose proof (List.filter_length_le (fun f => endsWith f ".mdx") files) as Hle.
    destruct (endsWith f ".mdx") eqn:Hf; cbn.
    + apply endsWith_spec in Hf. split.
      * intros Hlen. constructor; [done|]. apply IH. lia.
      * intros Hall. apply Forall_cons in Hall as [_ Hall]. apply IH in Hall. lia.
    + split; [lia|]. intros Hall. apply Forall_cons in Hall as [Hfront _].
      apply endsWith_spec in Hfront. congruence.
Qed.

End FolderFacts.

(** * More of the server *)
Section StoreFacts.
Import Js Server ServerApi.

(** The tactics of the pipeline: unfold the segments, split into the ways
    a run can go, and read the job, the calls and the journal off the
    resulting world. *)
Ltac pipeline_norm :=
  cbv beta iota zeta delta
    [processFile start finish resume fetched generated uploaded reconciled fail
     suspend awaiting inv_jobId inv_config inv_fileId inv_fileUrl fst snd
     truthy default from_option Datatypes.id negb].

Ltac pipeline_cases sc :=
  destruct (fetchResponse sc) as [data|e0];
  [destruct (getGemini _ _ _) as [ai|e1];
   [destruct (generateResponse sc) as [[[|c t]|]|e2];
    [ | destruct (uploadResponse sc) as [url|e3];
        [destruct (putResponse sc) as [[]|e4] |] | | ] | ] | ];
  pipeline_norm.

Ltac solve_view :=
  lazymatch goal with
  | |- view _ (record _ _) = _ => eapply view_record; solve_view
  | |- view _ (updateJob _ _ _ _) = _ => eapply view_updateJob; solve_view
  | |- view _ (mkWorld _ _ _ _) = _ => apply view_created
  | |- _ => eassumption
  end.

Ltac prefix_of l base :=
  lazymatch l with
  | base => constr:(@nil (string * Job))
  | ?x :: ?l' => let p := prefix_of l' base in constr:(x :: p)
  end.

Ltac solve_since :=
  lazymatch goal with
  | |- context [since ?w ?w' ?jobId] =>
    let Hv := fresh "Hv" in
    eassert (view jobId w' = _) as Hv by solve_view;
    apply view_journal in Hv;
    lazymatch type of Hv with
    | journal _ = ?l =>
      let p := prefix_of l (journal w) in
      rewrite (since_journal w w' jobId p Hv)
    end;
    clear Hv;
    cbn [omap list_omap fst snd rev app]; rewrite ?String.eqb_refl;
    cbn [omap list_omap fst snd rev app]
  end.

Ltac calls_prefix l base :=
  lazymatch l with
  | base => constr:(@nil Call)
  | ?x :: ?l' => let p := calls_prefix l' base in constr:(x :: p)
  end.

Lemma storeIs_record (c : Call) (w : World) js cs :
  storeIs w js cs -> storeIs (record c w) js cs.
Proof. by intros [<- <-]. Qed.

Lemma storeIs_created (jobId : string) (job : Job) (w : World) cs :
  clients w = cs ->
  storeIs {| jobs := <[jobId := job]> (jobs w); clients := clients w;
             calls := calls w; journal := (jobId, job) :: journal w |}
    (<[jobId := job]> (jobs w)) cs.
Proof. by intros <-. Qed.

(** [updateJob] when a client listens to the file of the job: the job is
    replaced and the client is written one event. *)
Lemma storeIs_updateJob_subscribed (now : nat) (jobId : string) (u : Updates)
    (w : World) (job : Job) m (fid : string) written c :
  storeIs w (<[jobId := job]> m) (<[fid := written]> c) ->
  fileId (merged now u job) = fid ->
  storeIs (updateJob now jobId u w) (<[jobId := merged now u job]> m)
    (<[fid := eventOf (merged now u job) :: written]> c).
Proof.
  intros [Hj Hc] Hfid. unfold storeIs, updateJob.
  rewrite Hj, lookup_insert_eq. fold (merged now u job). cbn [jobs clients].
  rewrite Hfid, Hc, lookup_insert_eq. by rewrite !insert_insert_eq.
Qed.

(** [updateJob] when nobody listens to the file of the job. *)
Lemma storeIs_updateJob_unsubscribed (now : nat) (jobId : string) (u : Updates)
    (w : World) (job : Job) m cs :
  storeIs w (<[jobId := job]> m) cs ->
  cs !! fileId (merged now u job) = None ->
  storeIs (updateJob now jobId u w) (<[jobId := merged now u job]> m) cs.
Proof.
  intros [Hj Hc] Hnone. unfold storeIs, updateJob.
  rewrite Hj, lookup_insert_eq. fold (merged now u job). cbn [jobs clients].
  rewrite Hc, Hnone. by rewrite insert_insert_eq.
Qed.

Lemma jobs_updateJob (now : nat) (jobId : string) (u : Updates) (w : World)
    (job : Job) m :
  jobs w = <[jobId := job]> m ->
  jobs (updateJob now jobId u w) = <[jobId := merged now u job]> m.
Proof.
  intros Hj.
  destruct (updateJob_hit now jobId u w job) as (-> & _); [by rewrite Hj, lookup_insert_eq|].
  by rewrite Hj, insert_insert_eq.
Qed.

Lemma jobs_record (c : Call) (w : World) m : jobs w = m -> jobs (record c w) = m.
Proof. done. Qed.

Ltac solve_jobs :=
  lazymatch goal with
  | |- jobs (record _ _) = _ => eapply jobs_record; solve_jobs
  | |- jobs (updateJob _ _ _ _) = _ => eapply jobs_updateJob; solve_jobs
  | |- jobs (mkWorld _ _ _ _) = _ => reflexivity
  end.

Ltac solve_store_subscribed :=
  lazymatch goal with
  | |- storeIs (record _ _) _ _ => eapply storeIs_record; solve_store_subscribed
  | |- storeIs (updateJob _ _ _ _) _ _ =>
    eapply storeIs_updateJob_subscribed; [solve_store_subscribed | reflexivity]
  | |- storeIs (mkWorld _ _ _ _) _ _ => eapply storeIs_created; eassumption
  end.

Ltac solve_store_unsubscribed H :=
  lazymatch goal with
  | |- storeIs (record _ _) _ _ => eapply storeIs_record; solve_store_unsubscribed H
  | |- storeIs (updateJob _ _ _ _) _ _ =>
    eapply storeIs_updateJob_unsubscribed; [solve_store_unsubscribed H | exact H]
  | |- storeIs (mkWorld _ _ _ _) _ _ => eapply storeIs_created; reflexivity
  end.

(** A whole run of [processFile] changes the store in one place: the entry
    under its own identifier, which it leaves terminal. *)
Lemma processFile_store (GEMINI_API_KEY : option string) (sc : Script)
    (fileId fileUrl : string) (config : Config) (w : World) :
  exists job,
    jobs (fst (processFile GEMINI_API_KEY sc fileId fileUrl config w))
      = <[uuid sc := job]> (jobs w)
    /\ terminal (status job) = true
    /\ Server.fileId job = fileId
    /\ match snd (processFile GEMINI_API_KEY sc fileId fileUrl config w) with
       | Some (Success _ _ _ _) => status job = completed
       | Some (Failure _) => status job = failed
       | None => False
       end.
Proof.
  pipeline_norm. pipeline_cases sc;
    (eexists; split; [solve_jobs|]; by repeat split).
Qed.

(** X11.  A run of [processFile] touches no job but its own and writes to
    no client but the one subscribed to its file: every other entry of the
    job store and every other client is exactly as before. *)
Theorem processFile_touches_only_its_own (GEMINI_API_KEY : option string)
    (sc : Script) (fileId fileUrl : string) (config : Config) (w : World) :
  let w' := fst (processFile GEMINI_API_KEY sc fileId fileUrl config w) in
  (forall other, other <> uuid sc -> jobs w' !! other = jobs w !! other)
  /\ (forall fid, fid <> fileId -> clients w' !! fid = clients w !! fid)
  /\ dom (clients w') = dom (clients w).
Proof.
  intros w'. split.
  { intros other Hother. subst w'.
    destruct (processFile_store GEMINI_API_KEY sc fileId fileUrl config w)
      as (job & -> & _). by rewrite lookup_insert_ne. }
  subst w'. destruct (clients w !! fileId) as [written|] eqn:Hsub.
  - assert (clients w = <[fileId := written]> (clients w)) as Hc
      by (symmetry; by apply insert_id).
    assert (exists evs,
              clients (fst (processFile GEMINI_API_KEY sc fileId fileUrl config w))
                = <[fileId := evs]> (clients w)) as [evs ->].
    { pipeline_norm. pipeline_cases sc;
        match goal with
        | |- exists evs, clients ?W = _ =>
          let Hcl := fresh "Hcl" in
          eassert (storeIs W _ _) as [_ Hcl] by solve_store_subscribed;
          rewrite Hcl; eexists; reflexivity
        end. }
    split.
    + intros fid Hfid. by rewrite lookup_insert_ne.
    + by apply dom_insert_lookup_L.
  - assert (clients (fst (processFile GEMINI_API_KEY sc fileId fileUrl config w))
              = clients w) as ->; [|done].
    pipeline_norm. pipeline_cases sc;
      match goal with
      | |- clients ?W = _ =>
        let Hcl := fresh "Hcl" in
        eassert (storeIs W _ _) as [_ Hcl] by solve_store_unsubscribed Hsub;
        exact Hcl
      end.
Qed.

(** X12.  A client subscribed to the file of a run is written one event
    for every [updateJob] of the run, in order and with the values the job
    then had: everything the job went through after its creation, the
    terminal state last. *)
Theorem processFile_notifies_subscriber (GEMINI_API_KEY : option string)
    (sc : Script) (fileId fileUrl : string) (config : Config) (w : World)
    (written : list SseData) :
  clients w !! fileId = Some written ->
  let w' := fst (processFile GEMINI_API_KEY sc fileId fileUrl config w) in
  clients w' !! fileId
    = Some (rev (eventOf <$> drop 1 (since w w' (uuid sc))) ++ written).
Proof.
  intros Hsub w'. subst w'.
  assert (clients w = <[fileId := written]> (clients w)) as Hc
    by (symmetry; by apply insert_id).
  pipeline_norm. pipeline_cases sc;
    (solve_since;
     match goal with
     | |- clients ?W !! _ = _ =>
       let Hcl := fresh "Hcl" in
       eassert (storeIs W _ _) as [_ Hcl] by solve_store_subscribed;
       rewrite Hcl, lookup_insert_eq; reflexivity
     end).
Qed.

Lemma callsSince_app (w0 w : World) (new : list Call) :
  calls w = new ++ calls w0 -> callsSince w0 w = rev new.
Proof.
  intros Hc. unfold callsSince. rewrite Hc, length_app.
  replace (List.length new + List.length (calls w0) - List.length (calls w0))
    with (List.length new) by lia.
  by rewrite take_app_length.
Qed.

Ltac solve_calls jobId :=
  lazymatch goal with
  | |- context [callsSince ?w ?w'] =>
    let Hv := fresh "Hv" in
    eassert (view jobId w' = _) as Hv by solve_view;
    apply view_calls in Hv;
    lazymatch type of Hv with
    | calls _ = ?l =>
      let p := calls_prefix l (calls w) in
      rewrite (callsSince_app w w' p Hv)
    end;
    clear Hv;
    cbn [rev app omap list_omap stageOf fetchedUrl List.filter isExternal]
  end.

(** X13.  The calls a run of [processFile] makes outside the process.  A
    run that succeeds makes exactly four, in this order: it downloads the
    prompt from the address it was given, sends the downloaded text to the
    model the configuration selects, uploads the text the model returned
    for the file, and reports the file to the external store; what it
    returns is the uploaded text and the address the upload gave.  A run
    that fails has made the first one, two or three of these stages and
    never the report to the external store. *)
Theorem processFile_call_order (GEMINI_API_KEY : option string)
    (sc : Script) (fileId fileUrl : string) (config : Config) (w : World) :
  let r := processFile GEMINI_API_KEY sc fileId fileUrl config w in
  match snd r with
  | Some (Success jobId fid url content) =>
    exists ai data t1 t2,
      fetchResponse sc = Resolved data
      /\ generateResponse sc = Resolved (Some content)
      /\ uploadResponse sc = Resolved url
      /\ List.filter isExternal (callsSince w (fst r))
         = [CallGet fileUrl; CallGenerate ai (selectedModel config) (textOf data);
            CallUpload content fileId t1; CallPut fileId t2]
  | Some (Failure _) =>
    exists k, 1 <= k <= 3
      /\ omap stageOf (callsSince w (fst r)) = take k pipelineStages
  | None => False
  end.
Proof.
  intros r. subst r. pipeline_norm. pipeline_cases sc.
  - exists 2. split; [lia|]. solve_calls (uuid sc). reflexivity.
  - eexists _, _, _, _. split; [reflexivity|]. split; [reflexivity|].
    split; [reflexivity|]. solve_calls (uuid sc). reflexivity.
  - eexists _, _, _, _. split; [reflexivity|]. split; [reflexivity|].
    split; [reflexivity|]. solve_calls (uuid sc). reflexivity.
  - exists 3. split; [lia|]. solve_calls (uuid sc). reflexivity.
  - exists 2. split; [lia|]. solve_calls (uuid sc). reflexivity.
  - exists 2. split; [lia|]. solve_calls (uuid sc). reflexivity.
  - exists 1. split; [lia|]. solve_calls (uuid sc). reflexivity.
  - exists 1. split; [lia|]. solve_calls (uuid sc). reflexivity.
Qed.

(** One turn of the automation loop either skips the file or is a whole
    run of [processFile]. *)
Lemma visit_cases (AUTO_CONFIG : Config) (GEMINI_API_KEY : option string)
    (sc : Script) (file : FileRecord) (w : World) :
  (isProcessing w (file_id file) = true
   /\ visit AUTO_CONFIG GEMINI_API_KEY sc file w = w)
  \/ (isProcessing w (file_id file) = false
      /\ visit AUTO_CONFIG GEMINI_API_KEY sc file w
         = fst (processFile GEMINI_API_KEY sc (file_id file) (file_secureUrl file)
                  AUTO_CONFIG w)).
Proof.
  unfold visit, submit, processFile.
  destruct (isProcessing w (file_id file)); [by left|right].
  split; [done|]. by destruct (start _ _ _ _ _ w).
Qed.

Lemma visit_inFlight (AUTO_CONFIG : Config) (GEMINI_API_KEY : option string)
    (sc : Script) (file : FileRecord) (w : World) (i : string) (j : Job) :
  inFlight (visit AUTO_CONFIG GEMINI_API_KEY sc file w) i j -> inFlight w i j.
Proof.
  destruct (visit_cases AUTO_CONFIG GEMINI_API_KEY sc file w) as [[_ ->]|[_ ->]]; [done|].
  destruct (processFile_store GEMINI_API_KEY sc (file_id file) (file_secureUrl file)
              AUTO_CONFIG w) as (job & Hjobs & Hterm & _).
  unfold inFlight. rewrite Hjobs. intros [Hi Hn]. split; [|done].
  apply lookup_insert_Some in Hi as [[<- <-]|[_ Hi]]; [|done].
  by destruct Hn as [Hn|Hn]; rewrite Hn in Hterm.
Qed.

Lemma quiescent_not_processing (w : World) (fid : string) :
  quiescent w -> isProcessing w fid = false.
Proof.
  intros Hq. apply bool_decide_eq_false. intros Hex.
  apply map_Exists_lookup in Hex as (i & j & Hi & _ & Hn).
  specialize (Hq i j Hi). by destruct Hn as [Hn|Hn]; rewrite Hn in Hq.
Qed.

Lemma processFile_fetches (GEMINI_API_KEY : option string) (sc : Script)
    (fileId fileUrl : string) (config : Config) (w : World) :
  exists new,
    calls (fst (processFile GEMINI_API_KEY sc fileId fileUrl config w)) = new ++ calls w
    /\ omap fetchedUrl (rev new) = [fileUrl].
Proof.
  pipeline_norm. pipeline_cases sc;
    match goal with
    | |- exists new, calls ?W = _ /\ _ =>
      let Hv := fresh "Hv" in
      eassert (view (uuid sc) W = _) as Hv by solve_view;
      apply view_calls in Hv;
      lazymatch type of Hv with
      | calls _ = ?l => let p := calls_prefix l (calls w) in exists p
      end;
      split; [exact Hv | reflexivity]
    end.
Qed.

Lemma quiescent_insert (w w' : World) (i : string) (job : Job) :
  quiescent w -> jobs w' = <[i := job]> (jobs w) -> terminal (status job) = true ->
  quiescent w'.
Proof.
  intros Hq Hj Hterm i' j' Hi'. rewrite Hj in Hi'.
  apply lookup_insert_Some in Hi' as [[_ <-]|[_ Hi']]; [done|by eapply Hq].
Qed.

Lemma automation_loop_inFlight (AUTO_CONFIG : Config) (GEMINI_API_KEY : option string)
    (fs : list FileRecord) (scripts : nat -> Script) (h : nat -> nat) (w : World)
    (i : string) (j : Job) :
  inFlight (foldl (fun w '(k, file) => visit AUTO_CONFIG GEMINI_API_KEY (scripts k) file w)
              w (imap (fun k f => (h k, f)) fs)) i j ->
  inFlight w i j.
Proof.
  revert h w. induction fs as [|f fs IH]; intros h w; [done|].
  cbn [imap foldl]. intros Hin.
  apply (IH (h ∘ S)) in Hin. by eapply visit_inFlight.
Qed.

Lemma automation_loop_quiescent (AUTO_CONFIG : Config) (GEMINI_API_KEY : option string)
    (fs : list FileRecord) (scripts : nat -> Script) (h : nat -> nat) (w : World) :
  quiescent w ->
  let w' := foldl (fun w '(k, file) => visit AUTO_CONFIG GEMINI_API_KEY (scripts k) file w)
              w (imap (fun k f => (h k, f)) fs) in
  exists new, calls w' = new ++ calls w
    /\ omap fetchedUrl (rev new) = file_secureUrl <$> fs.
Proof.
  revert h w. induction fs as [|f fs IH]; intros h w Hq; [by exists []|].
  cbn [imap foldl].
  destruct (visit_cases AUTO_CONFIG GEMINI_API_KEY (scripts (h 0)) f w)
    as [[Hbusy _]|[_ Hvisit]]; [by rewrite quiescent_not_processing in Hbusy|].
  destruct (processFile_store GEMINI_API_KEY (scripts (h 0)) (file_id f)
              (file_secureUrl f) AUTO_CONFIG w) as (job & Hjobs & Hterm & _).
  destruct (processFile_fetches GEMINI_API_KEY (scripts (h 0)) (file_id f)
              (file_secureUrl f) AUTO_CONFIG w) as (new1 & Hcalls & Hurls).
  rewrite <- Hvisit in Hjobs, Hcalls.
  destruct (IH (h ∘ S) (visit AUTO_CONFIG GEMINI_API_KEY (scripts (h 0)) f w))
    as (new2 & Hcalls2 & Hurls2); [by eapply quiescent_insert|].
  exists (new2 ++ new1). split.
  - etrans; [exact Hcalls2|]. by rewrite Hcalls, List.app_assoc.
  - rewrite rev_app_distr, omap_app, Hurls, Hurls2. reflexivity.
Qed.

(** X14.  A pass of [runAutomation] that nothing interrupts finishes
    every job it starts: a job that is in flight after the pass was in
    flight, with the same contents, before it.  So the pass keeps a store
    free of duplicate jobs in flight free of them, and leaves a store with
    no job in flight in that state. *)
Theorem runAutomation_leaves_nothing_in_flight (AUTO_CONFIG : Config)
    (GEMINI_API_KEY : option string) (listing : Settled (list FileRecord))
    (scripts : nat -> Script) (w : World) :
  let w' := runAutomation AUTO_CONFIG GEMINI_API_KEY listing scripts w in
  (forall i j, inFlight w' i j -> inFlight w i j)
  /\ (dedup w -> dedup w')
  /\ (quiescent w -> quiescent w').
Proof.
  intros w'.
  assert (forall i j, inFlight w' i j -> inFlight w i j) as Hin.
  { intros i j. subst w'. unfold runAutomation. destruct listing as [files|e]; [|done].
    apply (automation_loop_inFlight _ _ _ _ (fun k => k)). }
  split; [done|]. split.
  - intros Hd i1 i2 j1 j2 H1 H2 Hsame Hn1 Hn2.
    destruct (Hin i1 j1 (conj H1 Hn1)) as [H1' _].
    destruct (Hin i2 j2 (conj H2 Hn2)) as [H2' _].
    by eapply Hd.
  - intros Hq i j Hi.
    destruct (status j) eqn:Hst; try done.
    + destruct (Hin i j) as [Hi' _]; [split; [done|by right]|].
      specialize (Hq i j Hi'). by rewrite Hst in Hq.
    + destruct (Hin i j) as [Hi' _]; [split; [done|by left]|].
      specialize (Hq i j Hi'). by rewrite Hst in Hq.
Qed.

(** X15.  Started when no job is in flight, a pass of [runAutomation]
    downloads the prompt of every file of the listing whose status is
    [Pending], once each and in the order of the listing, and the prompt
    of no other file. *)
Theorem runAutomation_fetches_each_pending_file_once (AUTO_CONFIG : Config)
    (GEMINI_API_KEY : option string) (files : list FileRecord)
    (scripts : nat -> Script) (w : World) :
  quiescent w ->
  let w' := runAutomation AUTO_CONFIG GEMINI_API_KEY (Resolved files) scripts w in
  omap fetchedUrl (callsSince w w') = file_secureUrl <$> pendingFiles files.
Proof.
  intros Hq w'. subst w'. unfold runAutomation.
  destruct (automation_loop_quiescent AUTO_CONFIG GEMINI_API_KEY (pendingFiles files)
              scripts (fun k => k) w Hq) as (new & Hcalls & Hurls).
  unfold pendingFiles in *. by rewrite (callsSince_app _ _ new Hcalls).
Qed.



Lemma size_filter_insert {A} (P : string * A -> Prop) `{!forall x, Decision (P x)}
    (m : gmap string A) (i : string) (x : A) :
  m !! i = None ->
  size (filter P (<[i := x]> m))
    = (if decide (P (i, x)) then 1 else 0) + size (filter P m).
Proof.
  intros Hi. destruct (decide (P (i, x))) as [HP|HP].
  - rewrite map_filter_insert_True by done.
    rewrite map_size_insert_None; [done|].
    apply map_lookup_filter_None_2. by left.
  - rewrite map_filter_insert_False by done. by rewrite delete_id.
Qed.

Lemma countStatus_insert (st : Status) (w w' : World) (i : string) (job : Job) :
  jobs w !! i = None -> jobs w' = <[i := job]> (jobs w) ->
  countStatus st w' = (if decide (status job = st) then 1 else 0) + countStatus st w.
Proof.
  intros Hi Hj. unfold countStatus. rewrite Hj.
  by rewrite (size_filter_insert (fun kv => status kv.2 = st)).
Qed.

(** X17.  What [GET /api/stats] reports after a run of [processFile]
    under a new identifier, compared with before: one job more in total,
    as many active ones, and one more completed job if the run succeeded,
    one more failed job if it did not. *)
Theorem stats_after_processFile (GEMINI_API_KEY : option string)
    (sc : Script) (fileId fileUrl : string) (config : Config) (w : World) :
  jobs w !! uuid sc = None ->
  let r := processFile GEMINI_API_KEY sc fileId fileUrl config w in
  let before := stats w in
  let after := stats (fst r) in
  totalJobs after = S (totalJobs before)
  /\ activeJobs after = activeJobs before
  /\ match snd r with
     | Some (Success _ _ _ _) =>
       completedJobs after = S (completedJobs before)
       /\ failedJobs after = failedJobs before
     | Some (Failure _) =>
       failedJobs after = S (failedJobs before)
       /\ completedJobs after = completedJobs before
     | None => False
     end.
Proof.
  intros Hfresh r before after. subst r before after.
  destruct (processFile_store GEMINI_API_KEY sc fileId fileUrl config w)
    as (job & Hjobs & _ & _ & Hout).
  unfold stats. cbn [totalJobs activeJobs completedJobs failedJobs].
  rewrite !(countStatus_insert _ w _ (uuid sc) job Hfresh Hjobs).
  rewrite Hjobs, map_size_insert_None by done.
  destruct (snd (processFile GEMINI_API_KEY sc fileId fileUrl config w))
    as [[? ? ? ?|?]|]; [| |done]; rewrite Hout; by repeat split.
Qed.

Lemma size_by_status (m : gmap string Job) :
  size (filter (fun kv => status kv.2 = processing) m)
  + size (filter (fun kv => status kv.2 = completed) m)
  + size (filter (fun kv => status kv.2 = failed) m)
  + size (filter (fun kv => status kv.2 = pending) m) = size m.
Proof.
  induction m as [|i job m Hi _ IH] using map_first_key_ind.
  - by rewrite !map_filter_empty, map_size_empty.
  - rewrite !size_filter_insert by done. rewrite map_size_insert_None by done.
    cbn [snd]. destruct (status job); repeat case_decide; try done; lia.
Qed.

(** X18.  The three counters of [GET /api/stats] count disjoint jobs:
    together with the jobs still [pending], which the endpoint does not
    report, they add up to [totalJobs]. *)
Theorem stats_counters_partition (w : World) :
  activeJobs (stats w) + completedJobs (stats w) + failedJobs (stats w)
  + countStatus pending w = totalJobs (stats w).
Proof. apply size_by_status. Qed.

Lemma filter_elem_of (p : string -> bool) (l : list string) (k : string) :
  k ∈ List.filter p l -> k ∈ l /\ p k = true.
Proof.
  intros Hk. apply list_elem_of_In, filter_In in Hk as [Hin Hp].
  split; [by apply list_elem_of_In|done].
Qed.

(** Without a usable key in the request, [getGemini] decides on the
    environment variable alone. *)
Lemma getGemini_from_env (GEMINI_API_KEY : option string) (rnd : nat) :
  match getGemini GEMINI_API_KEY rnd None with
  | inl ai => exists k, apiKey ai = Some k /\ validKey k = true /\ GEMINI_API_KEY = Some k
  | inr _ => forall k, GEMINI_API_KEY = Some k -> validKey k = false
  end.
Proof.
  unfold getGemini. destruct GEMINI_API_KEY as [apiKey|]; [|done].
  unfold validKey.
  destruct (truthy (Some apiKey)) eqn:Ht; cbn [negb andb];
    [|by intros k [= <-]; rewrite Ht].
  destruct (String.eqb apiKey "MY_GEMINI_API_KEY") eqn:Hmy; cbn [orb negb andb].
  { intros k [= <-]. rewrite Ht, Hmy. by rewrite andb_false_r. }
  destruct (includes apiKey "YOUR_API_KEY") eqn:Hinc; cbn [negb andb].
  { intros k [= <-]. by rewrite Ht, Hmy, Hinc. }
  exists apiKey. split; [done|]. split; [by rewrite Ht, Hmy, Hinc|done].
Qed.

(** X19.  [getGemini] never builds a client on a placeholder key.  With
    the random draw below the number of usable keys of the request, the
    client it returns holds a key that is non-empty, does not contain
    [YOUR_API_KEY] and is not [MY_GEMINI_API_KEY]; the key comes from the
    request, or from the environment when the request has no usable key.
    It throws only when neither the request nor the environment has a
    usable key. *)
Theorem getGemini_key_is_usable (GEMINI_API_KEY : option string) (rnd : nat)
    (providedKeys : option (list string)) :
  let validKeys := List.filter validKey (default [] providedKeys) in
  (validKeys <> [] -> rnd < List.length validKeys) ->
  match getGemini GEMINI_API_KEY rnd providedKeys with
  | inl ai =>
    exists k, apiKey ai = Some k /\ validKey k = true
      /\ (k ∈ default [] providedKeys
          \/ (validKeys = [] /\ GEMINI_API_KEY = Some k))
  | inr _ =>
    validKeys = [] /\ forall k, GEMINI_API_KEY = Some k -> validKey k = false
  end.
Proof.
  intros validKeys Hrnd.
  assert (validKeys = [] ->
          getGemini GEMINI_API_KEY rnd providedKeys = getGemini GEMINI_API_KEY rnd None ->
          match getGemini GEMINI_API_KEY rnd providedKeys with
          | inl ai =>
            exists k, apiKey ai = Some k /\ validKey k = true
              /\ (k ∈ default [] providedKeys
                  \/ (validKeys = [] /\ GEMINI_API_KEY = Some k))
          | inr _ =>
            validKeys = [] /\ forall k, GEMINI_API_KEY = Some k -> validKey k = false
          end) as Henv.
  { intros Hnone ->. pose proof (getGemini_from_env GEMINI_API_KEY rnd) as H.
    destruct (getGemini GEMINI_API_KEY rnd None) as [ai|e]; [|done].
    destruct H as (k & Hk & Hvalid & Hkey). exists k. by auto. }
  destruct providedKeys as [keys|]; [|by apply Henv].
  destruct (List.filter validKey keys) as [|v vs] eqn:Hvs.
  - apply Henv; [done|]. unfold getGemini. rewrite Hvs.
    by destruct (0 <? List.length keys).
  - unfold getGemini. destruct keys as [|key keys]; [done|].
    cbn [List.length Nat.ltb Nat.leb]. rewrite Hvs. cbn [List.length Nat.ltb Nat.leb].
    subst validKeys. cbn [default from_option Datatypes.id] in Hrnd. rewrite Hvs in Hrnd.
    destruct ((v :: vs) !! rnd) as [k|] eqn:Hk.
    + apply list_elem_of_lookup_2 in Hk. rewrite <- Hvs in Hk.
      apply filter_elem_of in Hk as [Hin Hvalid].
      exists k. split; [done|]. split; [done|]. by left.
    + apply lookup_ge_None in Hk. specialize (Hrnd ltac:(done)). lia.
Qed.

End StoreFacts.

(** * More statements at concrete inputs *)
Section MoreInstances.
Import Js.

(** Five failing calls from index 0 of a pool of two keys: the keys are
    taken in turn and the index ends on the second key. *)
Lemma generateWithRetry_rotates_two_keys :
  let run := Batch.generateWithRetry Batch.CONFIG ["k1"; "k2"] Examples.failingEnv
               "Write about tea." "gemini-3-flash-preview" Batch.initial in
  Batch.keyIndex Batch.initial < List.length ["k1"; "k2"]
  /\ exists new,
      Batch.trace (snd run) = new ++ Batch.trace Batch.initial
      /\ rev (BatchMain.keysUsed new)
         = (fun j => ["k1"; "k2"] !! ((Batch.keyIndex Batch.initial + j) mod 2))
             <$> seq 0 (Batch.attempts new)
      /\ rev (BatchMain.keysUsed (Batch.trace (snd run)))
         = [Some "k1"; Some "k2"; Some "k1"; Some "k2"; Some "k1"]
      /\ Batch.keyIndex (snd run) = 1.
Proof.
  intros run.
  assert (Batch.keyIndex Batch.initial < List.length ["k1"; "k2"]) as Hk by (cbn; lia).
  split; [exact Hk|].
  destruct (generateWithRetry_rotates_keys Batch.CONFIG ["k1"; "k2"] Examples.failingEnv
              "Write about tea." "gemini-3-flash-preview" Batch.initial Hk)
    as (new & Htr & Hkeys & _ & _).
  exists new. split; [exact Htr|]. split; [exact Hkeys|].
  split; vm_compute; reflexivity.
Defined.

(** One file, everything works: one generation call with the first key,
    the text written under the safe name, the status call made. *)
Lemma batch_processFile_success_on_tea :
  let run := Batch.processFile Batch.CONFIG ["k1"; "k2"] Scenarios.goodEnv Examples.slug
               Examples.teaFile "gemini-3-flash-preview" Batch.initial in
  0 < Batch.MAX_RETRIES Batch.CONFIG
  /\ fst run = Batch.Return {| Batch.success := true; Batch.name := "tea.txt.mdx";
                               Batch.error := None |}
  /\ Batch.keyIndex (snd run) = 1
  /\ Batch.trace (snd run) =
     [Batch.EvLogDone "tea.txt.mdx"; Batch.EvPut "a";
      Batch.EvWriteFile "tea.txt.mdx" "Tea is a drink.";
      Batch.EvGenerate (Some "k1") "gemini-3-flash-preview" "Write about tea.";
      Batch.EvSleep 1200; Batch.EvGet "https://src/a";
      Batch.EvLogProcessing "tea.txt"].
Proof.
  intros run.
  assert (0 < Batch.MAX_RETRIES Batch.CONFIG) as Hmax by (cbn; lia).
  split; [exact Hmax|].
  pose proof (batch_processFile_success Batch.CONFIG ["k1"; "k2"] Scenarios.goodEnv
                Examples.slug Examples.teaFile "gemini-3-flash-preview"
                "Tea is a drink." (DataString "Write about tea.") Batch.initial Hmax) as H.
  cbv zeta in H.
  destruct H as (Hres & _ & _ & Hidx & Htr);
    [discriminate | reflexivity | reflexivity | reflexivity | reflexivity |].
  split; [exact Hres|]. split; [exact Hidx | exact Htr].
Defined.

(** The tool as configured, on three files of which the second cannot be
    downloaded: three results, in the order of the files. *)
Lemma runQueue_single_worker_on_three_files :
  Batch.CONCURRENCY_LIMIT Batch.CONFIG = 1
  /\ exists rs s',
      Batch.runQueue Batch.CONFIG ["k1"; "k2"] Examples.secondFetchFailsEnv Examples.slug
        Examples.threeFiles "gemini-3-flash-preview" Batch.initial = Some (rs, s')
      /\ Forall2 (BatchMain.resultOf Batch.CONFIG ["k1"; "k2"] Examples.secondFetchFailsEnv
                    Examples.slug "gemini-3-flash-preview") rs Examples.threeFiles
      /\ Batch.name <$> rs = ["tea.txt.mdx"; "mate.txt"; "chai.txt.mdx"].
Proof.
  split; [reflexivity|].
  destruct (runQueue_single_worker_in_order Batch.CONFIG ["k1"; "k2"]
              Examples.secondFetchFailsEnv Examples.slug Examples.threeFiles
              "gemini-3-flash-preview" Batch.initial eq_refl)
    as (rs & s' & Hrun & Hres).
  exists rs, s'. split; [exact Hrun|]. split; [exact Hres|].
  assert (Batch.runQueue Batch.CONFIG ["k1"; "k2"] Examples.secondFetchFailsEnv Examples.slug
            Examples.threeFiles "gemini-3-flash-preview" Batch.initial
          = Some (rs, s') -> Batch.name <$> rs = ["tea.txt.mdx"; "mate.txt"; "chai.txt.mdx"])
    as Hnames; [|exact (Hnames Hrun)].
  vm_compute. intros [= <- _]. reflexivity.
Defined.

(** A listing of three pending files and one that is done, the second
    pending file failing to download: the three pending files are the
    batch, there are three results, and the report is sent. *)
Lemma run_processes_three_pending_files :
  let report (rs : list Batch.Result) :=
    let success := List.filter (fun r => Batch.success r) rs in
    let failed := List.filter (fun r => negb (Batch.success r)) rs in
    {| BatchMain.subject := BatchMain.reportSubject Scenarios.mailEnv success failed;
       BatchMain.text := BatchMain.reportBody Scenarios.mailEnv success failed |} in
  1 <= Batch.CONCURRENCY_LIMIT Batch.CONFIG
  /\ BatchMain.pendingBatch Batch.CONFIG Scenarios.listing = Examples.threeFiles
  /\ exists rs s' outbox,
      BatchMain.run Batch.CONFIG ["k1"; "k2"] Examples.secondFetchFailsEnv Examples.slug
        Scenarios.mailEnv Batch.initial = (BatchMain.Returned, s', outbox)
      /\ List.length rs = 3
      /\ last outbox = Some (report rs).
Proof.
  intros report.
  assert (1 <= Batch.CONCURRENCY_LIMIT Batch.CONFIG) as HC by (cbn; lia).
  split; [exact HC|]. split; [reflexivity|].
  pose proof (run_processes_one_batch Batch.CONFIG ["k1"; "k2"] Examples.secondFetchFailsEnv
                Examples.slug Scenarios.mailEnv Scenarios.listing Batch.initial HC eq_refl)
    as H.
  cbv zeta in H.
  destruct H as (rs & s' & exit & outbox & Hrun & _ & Hlen & _ & _ & _ & _ & _ & Hmail);
    [discriminate|].
  destruct (Hmail eq_refl) as [Hlast Hret].
  assert (exit = BatchMain.Returned) as Hexit by (apply Hret; reflexivity).
  exists rs, s', outbox. rewrite <- Hexit. split; [exact Hrun|].
  split; [exact Hlen | exact Hlast].
Defined.

(** The same listing when everything works: three successes, no failure,
    one mail. *)
Lemma run_reports_three_successes :
  1 <= Batch.CONCURRENCY_LIMIT Batch.CONFIG
  /\ 0 < Batch.MAX_RETRIES Batch.CONFIG
  /\ exists rs s',
      BatchMain.run Batch.CONFIG ["k1"; "k2"] Scenarios.goodEnv Examples.slug
        Scenarios.mailEnv Batch.initial
      = (BatchMain.Returned, s',
         [{| BatchMain.subject := BatchMain.reportSubject Scenarios.mailEnv rs [];
             BatchMain.text := BatchMain.reportBody Scenarios.mailEnv rs [] |}])
      /\ List.length rs = 3
      /\ Forall (fun r => Batch.success r = true) rs.
Proof.
  assert (1 <= Batch.CONCURRENCY_LIMIT Batch.CONFIG) as HC by (cbn; lia).
  assert (0 < Batch.MAX_RETRIES Batch.CONFIG) as Hmax by (cbn; lia).
  split; [exact HC|]. split; [exact Hmax|].
  destruct (run_all_files_succeed Batch.CONFIG ["k1"; "k2"] Scenarios.goodEnv Examples.slug
              Scenarios.mailEnv Scenarios.listing "Tea is a drink."
              (DataString "Write about tea.") Batch.initial HC Hmax eq_refl)
    as (rs & s' & outbox & Hrun & Hlen & Hall & Hmail & _);
    [discriminate | discriminate | reflexivity | reflexivity | reflexivity
    | reflexivity | reflexivity |].
  exists rs, s'. rewrite <- (Hmail eq_refl). split; [exact Hrun|].
  split; [exact Hlen | exact Hall].
Defined.

(** A client listens to file [X] while a run for [X] succeeds: it is
    written the six updates of the job, the completion last. *)
Lemma processFile_notifies_client_of_X :
  let w' := fst (Server.processFile None Examples.okScript "X" "https://src/X"
                   Examples.demoConfig Scenarios.watchedWorld) in
  Server.clients Scenarios.watchedWorld !! "X" = Some []
  /\ Server.clients w' !! "X"
     = Some [Server.SseProgress Server.completed 100 "Process completed successfully!" "job-1";
             Server.SseProgress Server.processing 90 "Updating external API status..." "job-1";
             Server.SseProgress Server.processing 70 "Uploading to Cloudinary..." "job-1";
             Server.SseProgress Server.processing 30 "Generating content with Gemini..." "job-1";
             Server.SseProgress Server.processing 10 "Fetching prompt from source..." "job-1";
             Server.SseProgress Server.processing 5 "Starting processing..." "job-1"].
Proof.
  intros w'.
  assert (Server.clients Scenarios.watchedWorld !! "X" = Some []) as Hsub
    by (vm_compute; reflexivity).
  split; [exact Hsub|].
  pose proof (processFile_notifies_subscriber None Examples.okScript "X" "https://src/X"
                Examples.demoConfig Scenarios.watchedWorld [] Hsub) as H.
  cbv zeta in H. etrans; [exact H|]. vm_compute. reflexivity.
Defined.

(** A pass over two pending files and one that is done, started on an
    empty store: the prompts of the two pending files are downloaded. *)
Lemma runAutomation_fetches_X_and_Y :
  let files := [Examples.fileX; Scenarios.fileZ; Scenarios.fileY] in
  let w' := Server.runAutomation Examples.demoConfig None (Resolved files)
              Scenarios.scripts Examples.emptyWorld in
  ServerApi.quiescent Examples.emptyWorld
  /\ omap ServerApi.fetchedUrl (ServerApi.callsSince Examples.emptyWorld w')
     = ["https://src/X"; "https://src/Y"].
Proof.
  intros files w'.
  assert (ServerApi.quiescent Examples.emptyWorld) as Hq.
  { intros i j Hi. cbn in Hi. by rewrite lookup_empty in Hi. }
  split; [exact Hq|].
  exact (runAutomation_fetches_each_pending_file_once Examples.demoConfig None files
           Scenarios.scripts Examples.emptyWorld Hq).
Defined.


(** A successful run on a store that holds one completed job: two jobs,
    both completed. *)
Lemma stats_after_second_completed_job :
  let r := Server.processFile None Examples.okScript "X" "https://src/X"
             Examples.demoConfig Examples.doneWorld in
  let before := ServerApi.stats Examples.doneWorld in
  let after := ServerApi.stats (fst r) in
  Server.jobs Examples.doneWorld !! Server.uuid Examples.okScript = None
  /\ ServerApi.totalJobs after = S (ServerApi.totalJobs before)
  /\ ServerApi.activeJobs after = ServerApi.activeJobs before
  /\ ServerApi.completedJobs after = S (ServerApi.completedJobs before)
  /\ ServerApi.failedJobs after = ServerApi.failedJobs before.
Proof.
  intros r before after.
  assert (Server.jobs Examples.doneWorld !! Server.uuid Examples.okScript = None) as Hfresh
    by (vm_compute; reflexivity).
  split; [exact Hfresh|].
  pose proof (stats_after_processFile None Examples.okScript "X" "https://src/X"
                Examples.demoConfig Examples.doneWorld Hfresh) as H.
  cbv zeta in H. destruct H as (Htotal & Hactive & Hout).
  split; [exact Htotal|]. split; [exact Hactive|].
  assert (snd r = Some (Server.Success "job-1" "X" "https://cdn/article_X.mdx"
                          "Tea is a drink.")) as Hr by (vm_compute; reflexivity).
  subst r. rewrite Hr in Hout. exact Hout.
Defined.

(** A request with a placeholder among its keys and the draw on the second
    usable key: the client holds that key. *)
Lemma getGemini_skips_placeholder_of_request :
  let keys := Some ["YOUR_API_KEY_HERE"; "k1"; "k2"] in
  let validKeys := List.filter Server.validKey (default [] keys) in
  (validKeys <> [] -> 1 < List.length validKeys)
  /\ Server.getGemini None 1 keys = inl (mkGenAI (Some "k2"))
  /\ exists k, Some "k2" = Some k /\ Server.validKey k = true
       /\ (k ∈ default [] keys \/ (validKeys = [] /\ None = Some k)).
Proof.
  intros keys validKeys.
  assert (validKeys <> [] -> 1 < List.length validKeys) as Hrnd
    by (intros _; vm_compute; lia).
  split; [exact Hrnd|]. split; [reflexivity|].
  exact (getGemini_key_is_usable None 1 keys Hrnd).
Defined.

End MoreInstances.
